(** * Prompt navigation and memory allocation of the roll handler

    A shallow embedding of the [POST /api/prompt-history] handler of
    [server/routes.ts] together with the row types of [db/schema.ts], of
    the handlers [GET /api/prompts/:number/:letter?] and
    [DELETE /api/character/:id] of the same file, and of the functions of
    the client that edit memories and traits (memory-list.tsx,
    game-interface.tsx, prompt-system.tsx).

    Conventions of the embedding.
    - JavaScript numbers that hold prompt numbers, dice and row ids are
      integers ([Z]); the handler only adds, subtracts and compares them.
      The [integer] columns of the tables hold 32-bit signed numbers: a
      write of a number outside that range fails ([inInt4]).
    - JavaScript strings are [string]s of 8-bit characters; the letters the
      tables hold are ASCII.  [substring] counts characters of the model
      where JavaScript counts UTF-16 code units; the two agree on ASCII
      text ([asciiText]), to which statements on cut text are restricted.
    - Arrays of objects ([visitedPrompts], [memories], table rows) are lists:
      their order and possible repeated keys are observable through [find],
      [findIndex] and [push].
    - [new Date()] and [Math.random()] are read from an explicit environment.
    - Columns and response fields that the navigation and the allocation
      neither read nor write are left out: the other columns of a
      character, [updatedAt], and the text of the next prompt ([promptInfo]
      with its placeholder fallback), which does not feed back into the
      position, the visit record or the memories. *)

From Stdlib Require Import ZArith Lia Ascii String.
From stdpp Require Import base list strings sorting pretty.

#[local] Set Warnings "-clear-no-such-hyp".

Local Open Scope Z_scope.

(** ** Row types ([db/schema.ts]) *)

Record Experience := mkExperience {
  text : string;
  createdAt : string
}.

Record Memory := mkMemory {
  id : string;
  title : string;
  experiences : list Experience;
  inDiary : bool;
  strikedOut : bool
}.

Record VisitedPrompt := mkVisitedPrompt {
  promptNumber : Z;
  letters : list string
}.

Record DiceRoll := mkDiceRoll {
  d10 : Z;
  d6 : Z
}.

Record Prompt := mkPrompt {
  prompt_id : Z;
  prompt_promptNumber : Z;
  prompt_promptLetter : string;
  prompt_content : string
}.

Record Character := mkCharacter {
  character_id : Z;
  character_userId : Z;
  memories : list Memory;
  currentPrompt : Z;
  currentLetter : string;
  visitedPrompts : list VisitedPrompt
}.

Record PromptHistory := mkPromptHistory {
  history_characterId : Z;
  history_promptId : Z;
  history_promptNumber : Z;
  history_promptLetter : string;
  history_diceRoll : DiceRoll;
  history_response : string;
  history_createdAt : string
}.

(** ** JavaScript helpers *)

(** [array.includes(x)] *)
Definition includes {A} `{EqDecision A} (x : A) (l : list A) : bool :=
  bool_decide (x ∈ l).

(** [String.fromCharCode(s.charCodeAt(0) + 1)]: the one-character string
    whose code is one above the code of the first character of [s].  On the
    empty string [charCodeAt] is [NaN], which [fromCharCode] turns into code
    0; the handler never passes the empty string, which [||] replaces by
    a default.  Codes are the 8 bits of [ascii]: code 256, which JavaScript
    gives after code 255, is outside the model. *)
Definition nextCharCode (s : string) : string :=
  match s with
  | EmptyString => String (ascii_of_N 0) EmptyString
  | String c _ => String (ascii_of_N (N_of_ascii c + 1)) EmptyString
  end.

(** [visitedPrompts.find(p => p.promptNumber === n)] *)
Definition findVisited (n : Z) (visited : list VisitedPrompt)
  : option VisitedPrompt :=
  snd <$> list_find (λ p, promptNumber p = n) visited.

(** ** Navigation (routes.ts, "Calculate next prompt number" up to
    "Track this prompt in the character's visited prompts") *)

Definition movementOf (diceRoll : DiceRoll) : Z := d10 diceRoll - d6 diceRoll.

(** The manual de-duplication loop over [allPromptNumbers]. *)
Definition uniquePromptNumbers (allPromptNumbers : list Z) : list Z :=
  foldl (λ unique num, if includes num unique then unique else unique ++ [num])
        [] allPromptNumbers.

(** [uniquePromptNumbers.sort((a, b) => a - b)] *)
Definition sortedPromptNumbers (availablePrompts : list Prompt) : list Z :=
  merge_sort Z.le (uniquePromptNumbers (prompt_promptNumber <$> availablePrompts)).

(** [sortedPromptNumbers.indexOf(n)] *)
Definition indexOf (n : Z) (l : list Z) : option nat :=
  fst <$> list_find (λ x, x = n) l.

(** The test of the redirect loop: the candidate has not been visited at
    all three letters. *)
Definition notFullyVisited (visitedEntry : option VisitedPrompt) : bool :=
  match visitedEntry with
  | None => true
  | Some e =>
      (length (letters e) <? 3)%nat
      || negb (includes "a"%string (letters e))
      || negb (includes "b"%string (letters e))
      || negb (includes "c"%string (letters e))
  end.

(** The letter the redirect loop chooses inside a candidate number. *)
Definition redirectLetter (visitedEntry : option VisitedPrompt) : string :=
  match visitedEntry with
  | Some e =>
      if negb (includes "a"%string (letters e)) then "a"
      else if negb (includes "b"%string (letters e)) then "b"
      else if negb (includes "c"%string (letters e)) then "c"
      else "a"
  | None => "a"
  end.

(** The [for] loop over [sortedPromptNumbers] from [currentIndex + 1]: the
    first candidate that is not fully visited, with its letter. *)
Fixpoint scanCandidates (visited : list VisitedPrompt) (candidates : list Z)
  : option (Z * string) :=
  match candidates with
  | [] => None
  | candidatePromptNumber :: rest =>
      let visitedEntry := findVisited candidatePromptNumber visited in
      if notFullyVisited visitedEntry
      then Some (candidatePromptNumber, redirectLetter visitedEntry)
      else scanCandidates visited rest
  end.

(** The branch [movement === 0].  [last sorted] stands for
    [sortedPromptNumbers[sortedPromptNumbers.length - 1]]; it is read only
    after [indexOf] has found an element, so the list is not empty there. *)
Definition sameDice (currentPromptValue : Z) (currentLetterValue : string)
    (visited : list VisitedPrompt) (availablePrompts : list Prompt)
  : Z * string :=
  let nextLetter := nextCharCode currentLetterValue in
  if String.eqb currentLetterValue "c" then
    let sorted := sortedPromptNumbers availablePrompts in
    match indexOf currentPromptValue sorted with
    | Some currentIndex =>
        match scanCandidates visited (drop (S currentIndex) sorted) with
        | Some found => found
        | None =>
            match last sorted with
            | Some highestPromptNumber => (highestPromptNumber + 1, "a"%string)
            | None => (currentPromptValue, nextLetter)
            end
        end
    | None => (currentPromptValue, nextLetter)
    end
  else (currentPromptValue, nextLetter).

(** The branch [movement !== 0 && visitedEntryForNextPrompt]. *)
Definition revisitLetter (visitedLetters : list string) : string :=
  if includes "a"%string visitedLetters
     && includes "b"%string visitedLetters
     && includes "c"%string visitedLetters then "c"
  else if negb (includes "a"%string visitedLetters) then "a"
  else if negb (includes "b"%string visitedLetters) then "b"
  else if negb (includes "c"%string visitedLetters) then "c"
  else "a".

(** Next prompt number and letter. *)
Definition nextPosition (currentPromptValue : Z) (currentLetterValue : string)
    (diceRoll : DiceRoll) (visited : list VisitedPrompt)
    (availablePrompts : list Prompt) : Z * string :=
  let movement := movementOf diceRoll in
  if movement =? 0 then
    sameDice currentPromptValue currentLetterValue visited availablePrompts
  else
    let nextPrompt := Z.max 1 (currentPromptValue + movement) in
    match findVisited nextPrompt visited with
    | Some visitedEntryForNextPrompt =>
        (nextPrompt, revisitLetter (letters visitedEntryForNextPrompt))
    | None => (nextPrompt, "a"%string)
    end.

(** [letters.push(nextLetter)] on one entry. *)
Definition pushLetter (nextLetter : string) (p : VisitedPrompt) : VisitedPrompt :=
  {| promptNumber := promptNumber p; letters := letters p ++ [nextLetter] |}.

(** "Track this prompt in the character's visited prompts". *)
Definition trackVisited (visitedPrompts : list VisitedPrompt)
    (nextPrompt : Z) (nextLetter : string) : list VisitedPrompt :=
  match list_find (λ p, promptNumber p = nextPrompt) visitedPrompts with
  | Some (existingPromptIdx, existing) =>
      if includes nextLetter (letters existing) then visitedPrompts
      else alter (pushLetter nextLetter) existingPromptIdx visitedPrompts
  | None =>
      visitedPrompts
        ++ [ {| promptNumber := nextPrompt; letters := [nextLetter] |} ]
  end.

(** The navigator: the next position and the updated visit record. *)
Definition advance (currentPromptValue : Z) (currentLetterValue : string)
    (diceRoll : DiceRoll) (visited : list VisitedPrompt)
    (availablePrompts : list Prompt) : (Z * string) * list VisitedPrompt :=
  let next := nextPosition currentPromptValue currentLetterValue diceRoll
                visited availablePrompts in
  (next, trackVisited visited (fst next) (snd next)).

(** What the handler reads back from a visit record: the letters stored in
    the first entry of a prompt number. *)
Definition isVisited (visited : list VisitedPrompt) (n : Z) (l : string) : Prop :=
  ∃ e, findVisited n visited = Some e ∧ l ∈ letters e.

(** What a visit record holds, whatever the order and the number of its
    entries: some entry of the number lists the letter. *)
Definition recorded (visited : list VisitedPrompt) (n : Z) (l : string) : Prop :=
  ∃ e, e ∈ visited ∧ promptNumber e = n ∧ l ∈ letters e.

(** ** Memory allocation (routes.ts, "Now handle memory and experience
    creation") *)

(** The three branches of the allocation. *)
Inductive Outcome := Appended | Created | CapacityExceeded.

(** The predicate of [memories.findIndex]: not in a diary, not struck out,
    fewer than three experiences.  [experiences] is an array by its type, so
    [Array.isArray] holds. *)
Definition isOpen (memory : Memory) : bool :=
  negb (inDiary memory) && negb (strikedOut memory)
  && (length (experiences memory) <? 3)%nat.

(** [memory.experiences.push(newExperience)] *)
Definition pushExperience (newExperience : Experience) (memory : Memory) : Memory :=
  {| id := id memory;
     title := title memory;
     experiences := experiences memory ++ [newExperience];
     inDiary := inDiary memory;
     strikedOut := strikedOut memory |}.

(** [memories.filter(m => !m.strikedOut).length] *)
Definition activeMemoriesCount (memories : list Memory) : nat :=
  length (filter (λ m, strikedOut m = false) memories).

Definition recordResponse (newExperience : Experience)
    (newId promptTitle : string) (memories : list Memory)
  : list Memory * Outcome :=
  match list_find (λ memory, isOpen memory = true) memories with
  | Some (existingMemoryIndex, _) =>
      (alter (pushExperience newExperience) existingMemoryIndex memories,
       Appended)
  | None =>
      if (activeMemoriesCount memories <? 5)%nat then
        let newMemory :=
          {| id := newId;
             title := promptTitle;
             experiences := [newExperience];
             inDiary := false;
             strikedOut := false |} in
        (memories ++ [newMemory], Created)
      else (memories, CapacityExceeded)
  end.

(** ** The handler [POST /api/prompt-history] *)

Record Db := mkDb {
  db_characters : list Character;
  db_prompts : list Prompt;
  db_promptHistory : list PromptHistory
}.

(** [req.user] and the fields the handler reads from [req.body]; absent
    body fields are [None]. *)
Record Request := mkRequest {
  req_user : option Z;
  req_characterId : Z;
  req_promptId : Z;
  req_promptNumber : option Z;
  req_promptLetter : option string;
  req_diceRoll : DiceRoll;
  req_response : string
}.

(** What the handler draws from its surroundings: the clock and the random
    source of the memory id. *)
Record Env := mkEnv {
  env_now : string;
  env_randomId : string
}.

Record Body := mkBody {
  body_entry : PromptHistory;
  body_nextPrompt : Z;
  body_nextLetter : string;
  body_previousPrompt : Z;
  body_previousLetter : string;
  body_movement : Z;
  body_updatedMemories : option (list Memory)
}.

Inductive Response :=
  | NotAuthenticated                (* 401 *)
  | CharacterNotFound               (* 404 *)
  | ServerError (error : string)    (* 500 *)
  | CreatedEntry (body : Body).     (* 201 *)

(** [x || y] on an optional number: 0 and absent are falsy. *)
Definition orNumber (x : option Z) (y : Z) : Z :=
  match x with
  | Some n => if n =? 0 then y else n
  | None => y
  end.

(** [x || y] on strings: the empty string and absent are falsy. *)
Definition orString (x : option string) (y : string) : string :=
  match x with
  | Some EmptyString | None => y
  | Some s => s
  end.


(** The range of an [integer] column (schema.ts): [current_prompt] of
    [characters] and [prompt_number] of [prompt_history]. *)
Definition inInt4 (n : Z) : bool :=
  (-2147483648 <=? n) && (n <=? 2147483647).

(** The memory title derived from the answered prompt.  The cut
    [substring 0 30] is the cut of [content.substring(0, 30)] on ASCII
    text. *)
Definition promptTitle (currentPromptData : option Prompt)
    (currentPromptNumber : Z) (currentPromptLetter : string) : string :=
  match currentPromptData with
  | Some p =>
      "Prompt " +:+ pretty currentPromptNumber +:+ currentPromptLetter
        +:+ ": " +:+ substring 0 30 (prompt_content p) +:+ "..."
  | None =>
      "Response to Prompt " +:+ pretty currentPromptNumber
        +:+ currentPromptLetter
  end.

(** [select().from(characters).where(id = .. and userId = ..).limit(1)] *)
Definition selectCharacter (characterId userId : Z) (cs : list Character)
  : option Character :=
  snd <$> list_find
    (λ c, character_id c = characterId ∧ character_userId c = userId) cs.

(** [select().from(prompts).where(id = promptId).limit(1)] *)
Definition selectPrompt (promptId : Z) (ps : list Prompt) : option Prompt :=
  snd <$> list_find (λ p, prompt_id p = promptId) ps.

(** The order of [orderBy(prompts.promptNumber)]. *)
Definition byPromptNumber (p q : Prompt) : Prop :=
  prompt_promptNumber p ≤ prompt_promptNumber q.

#[local] Instance byPromptNumber_dec : RelDecision byPromptNumber.
Proof. intros p q. unfold byPromptNumber. apply _. Defined.

(** A row placed into rows in order, before the first row whose prompt
    number is not lower. *)
Fixpoint insertByPromptNumber (p : Prompt) (sorted : list Prompt)
  : list Prompt :=
  match sorted with
  | [] => [p]
  | q :: rest =>
      if decide (byPromptNumber p q) then p :: q :: rest
      else q :: insertByPromptNumber p rest
  end.

(** [select().from(prompts).orderBy(prompts.promptNumber)].  SQL leaves
    the order of rows of equal prompt number open; they are given here in
    the order of the table.  The navigator reads the rows only through
    their prompt numbers. *)
Definition selectAvailablePrompts (ps : list Prompt) : list Prompt :=
  foldr insertByPromptNumber [] ps.

(** A row after [set(updateData)]: [memories] is part of [updateData] only
    when a memory was updated. *)
Definition updatedCharacter (nextPrompt : Z) (nextLetter : string)
    (visited : list VisitedPrompt) (updatedMemories : option (list Memory))
    (c : Character) : Character :=
  {| character_id := character_id c;
     character_userId := character_userId c;
     memories := default (memories c) updatedMemories;
     currentPrompt := nextPrompt;
     currentLetter := nextLetter;
     visitedPrompts := visited |}.

(** [update(characters).set(updateData).where(id = characterId)] *)
Definition updateCharacter (characterId : Z) (nextPrompt : Z)
    (nextLetter : string) (visited : list VisitedPrompt)
    (updatedMemories : option (list Memory)) (cs : list Character)
  : list Character :=
  (λ c,
     if bool_decide (character_id c = characterId)
     then updatedCharacter nextPrompt nextLetter visited updatedMemories c
     else c) <$> cs.

(** The handler.  [prompt_history.prompt_id] references [prompts.id]
    (schema.ts), so the insert of the history entry fails when the request
    names no stored prompt, and it fails when the prompt number does not fit
    the integer column; the [catch] turns that into a 500 before anything
    is written.  The update of the character comes after the insert and
    outside any transaction: when the next prompt number does not fit the
    integer column [current_prompt] the update fails, the [catch] answers
    500, and the history entry stays written. *)
Definition postPromptHistory (env : Env) (req : Request) (db : Db)
  : Db * Response :=
  match req_user req with
  | None => (db, NotAuthenticated)
  | Some userId =>
    match selectCharacter (req_characterId req) userId (db_characters db) with
    | None => (db, CharacterNotFound)
    | Some character =>
      let currentPromptData := selectPrompt (req_promptId req) (db_prompts db) in
      let currentPromptValue :=
        orNumber (req_promptNumber req) (currentPrompt character) in
      let currentLetterValue :=
        orString (req_promptLetter req)
          (orString (Some (currentLetter character)) "a") in
      let availablePrompts := selectAvailablePrompts (db_prompts db) in
      if bool_decide (availablePrompts = []) then
        (db, ServerError "No prompts available in the database")
      else
        let '((nextPrompt, nextLetter), visited) :=
          advance currentPromptValue currentLetterValue (req_diceRoll req)
            (visitedPrompts character) availablePrompts in
        match currentPromptData with
        | None => (db, ServerError "Failed to create prompt history")
        | Some _ =>
          if negb (inInt4 currentPromptValue) then
            (db, ServerError "Failed to create prompt history")
          else
          let entry :=
            {| history_characterId := req_characterId req;
               history_promptId := req_promptId req;
               history_promptNumber := currentPromptValue;
               history_promptLetter := currentLetterValue;
               history_diceRoll := req_diceRoll req;
               history_response := req_response req;
               history_createdAt := env_now env |} in
          let newExperience :=
            {| text := req_response req; createdAt := env_now env |} in
          let '(memories', outcome) :=
            recordResponse newExperience (env_randomId env)
              (promptTitle currentPromptData currentPromptValue
                 currentLetterValue)
              (memories character) in
          let updatedMemories :=
            match outcome with
            | CapacityExceeded => None
            | _ => Some memories'
            end in
          if negb (inInt4 nextPrompt) then
            ({| db_characters := db_characters db;
                db_prompts := db_prompts db;
                db_promptHistory := db_promptHistory db ++ [entry] |},
             ServerError "Failed to create prompt history")
          else
          ({| db_characters :=
                updateCharacter (req_characterId req) nextPrompt nextLetter
                  visited updatedMemories (db_characters db);
              db_prompts := db_prompts db;
              db_promptHistory := db_promptHistory db ++ [entry] |},
           CreatedEntry
             {| body_entry := entry;
                body_nextPrompt := nextPrompt;
                body_nextLetter := nextLetter;
                body_previousPrompt := currentPromptValue;
                body_previousLetter := currentLetterValue;
                body_movement := movementOf (req_diceRoll req);
                body_updatedMemories := updatedMemories |})
        end
    end
  end.

(** A character's journey: the rolls of a new character, who starts at
    (1, a) with an empty visit record and sends the position it was given
    back with the next roll. *)
Definition play (availablePrompts : list Prompt) (rolls : list DiceRoll)
  : (Z * string) * list VisitedPrompt :=
  foldl (λ st diceRoll,
           advance (fst (fst st)) (snd (fst st)) diceRoll (snd st)
             availablePrompts)
        ((1, "a"%string), []) rolls.

(** ** Reading the visit record *)

Definition fullyVisited (visited : list VisitedPrompt) (n : Z) : Prop :=
  isVisited visited n "a" ∧ isVisited visited n "b" ∧ isVisited visited n "c".


(** A record without repetition: one entry per prompt number and no letter
    twice inside an entry. *)
Definition noDuplicates (visited : list VisitedPrompt) : Prop :=
  NoDup (promptNumber <$> visited) ∧ Forall (λ e, NoDup (letters e)) visited.

(** ** Bounds of the stored state *)

(** The bounds of the memory pool: at most 3 experiences in a memory, at
    most 5 memories that are not struck out. *)
Definition poolInvariant (memories : list Memory) : Prop :=
  Forall (λ m, (length (experiences m) ≤ 3)%nat) memories
  ∧ (activeMemoriesCount memories ≤ 5)%nat.


(** ** Sample states *)

(** A pool at capacity: five memories of three experiences each, none
    struck out. *)
Definition fullMemory (memoryId : string) : Memory :=
  {| id := memoryId; title := "Memory";
     experiences := [mkExperience "one" "t1"; mkExperience "two" "t2";
                     mkExperience "three" "t3"];
     inDiary := false; strikedOut := false |}.

Definition fullPool : list Memory :=
  fullMemory <$> ["m1"; "m2"; "m3"; "m4"; "m5"]%string.

(** Catalogues with prompt 1 alone, and with prompts 1 and 2. *)
Definition smallCatalogue : list Prompt :=
  [mkPrompt 100 1 "a" "You are a vampire."].

Definition catalogue : list Prompt :=
  [mkPrompt 100 1 "a" "You are a vampire."; mkPrompt 101 2 "a" "You feed."].

(** A user's character at (1, c) whose pool is at capacity, and a roll of
    equal dice on it. *)

Definition characterAtCapacity : Character :=
  {| character_id := 10; character_userId := 1; memories := fullPool;
     currentPrompt := 1; currentLetter := "c";
     visitedPrompts := [mkVisitedPrompt 1 ["b"; "c"]%string] |}.

Definition rollEqualDice : Request :=
  {| req_user := Some 1; req_characterId := 10; req_promptId := 100;
     req_promptNumber := Some 1; req_promptLetter := Some "c"%string;
     req_diceRoll := mkDiceRoll 7 7; req_response := "I fed on a traveler" |}.

(** The responses of a session recorded one after the other, with the
    outcome of each. *)
Definition recordAll (responses : list string) (memories : list Memory)
  : list Memory * list Outcome :=
  foldl (λ st response,
           let allocation :=
             recordResponse {| text := response; createdAt := "now" |}
               ("m" +:+ pretty (length (fst st))) "Memory" (fst st) in
           (fst allocation, snd st ++ [snd allocation]))
        (memories, []) responses.




(** A visit record that lists prompt 2 in two entries. *)
Definition repeatedRecord : list VisitedPrompt :=
  [mkVisitedPrompt 2 ["b"]%string; mkVisitedPrompt 2 ["a"]%string].

(** A pool of six full memories, none struck out. *)
Definition poolOfSix : list Memory := fullMemory "m0" :: fullPool.


(** ** The prompt shown for the next position (routes.ts, "Try to find
    the next prompt with the specific letter") *)

(** [availablePrompts.find(p => p.promptNumber === n && p.promptLetter === l)] *)
Definition findPrompt (n : Z) (l : string) (ps : list Prompt) : option Prompt :=
  snd <$> list_find
    (λ p, prompt_promptNumber p = n ∧ prompt_promptLetter p = l) ps.

(** [availablePrompts.find(p => p.promptNumber === n)] *)
Definition findPromptNumber (n : Z) (ps : list Prompt) : option Prompt :=
  snd <$> list_find (λ p, prompt_promptNumber p = n) ps.

(** [Math.max(...numbers)]; [None] stands for the [-Infinity] of the empty
    list. *)
Fixpoint maxOf (numbers : list Z) : option Z :=
  match numbers with
  | [] => None
  | x :: rest =>
      match maxOf rest with
      | None => Some x
      | Some m => Some (Z.max x m)
      end
  end.

(** [nextPromptData] of the roll handler: the stored prompt of the next
    position, else the first stored prompt of the next number, else a
    placeholder built on a stored prompt.  The handler reaches this with a
    catalogue that is not empty; on an empty list the object built from
    [undefined] has no id and is [None] here. *)
Definition nextPromptInfo (availablePrompts : list Prompt) (nextPrompt : Z)
    (nextLetter : string) : option Prompt :=
  match findPrompt nextPrompt nextLetter availablePrompts with
  | Some nextPromptData => Some nextPromptData
  | None =>
    match findPromptNumber nextPrompt availablePrompts with
    | Some nextPromptData => Some nextPromptData
    | None =>
      match maxOf (prompt_promptNumber <$> availablePrompts) with
      | None => None
      | Some maxPromptNumber =>
        let fallbackPromptNumber := Z.min maxPromptNumber 15 in
        match findPromptNumber fallbackPromptNumber availablePrompts with
        | Some fallbackPrompt =>
            Some {| prompt_id := prompt_id fallbackPrompt;
                    prompt_promptNumber := nextPrompt;
                    prompt_promptLetter := nextLetter;
                    prompt_content :=
                      "[Prompt " +:+ pretty nextPrompt +:+ nextLetter +:+
                      " - Please work with your game master to create content for this prompt]" |}
        | None =>
            match last availablePrompts with
            | Some highestPrompt =>
                Some {| prompt_id := prompt_id highestPrompt;
                        prompt_promptNumber := nextPrompt;
                        prompt_promptLetter := nextLetter;
                        prompt_content :=
                          "[Prompt " +:+ pretty nextPrompt +:+ nextLetter
                          +:+ " - Content not yet available]" |}
            | None => None
            end
        end
      end
    end
  end.

(** ** The handler [GET /api/prompts/:number/:letter?] *)

(** The prompt a client is shown.  [view_promptNumber] is [None] for the
    [NaN] of a number parameter that does not parse; [view_entry] is [None]
    when the stored [entry] column is passed on. *)
Record PromptView := mkPromptView {
  view_id : Z;
  view_promptNumber : option Z;
  view_promptLetter : string;
  view_entry : option string;
  view_content : string;
  view_isPlaceholder : bool
}.

Inductive PromptResponse :=
  | PromptNotAuthenticated            (* 401 *)
  | NoPromptsAvailable                (* 404 *)
  | PromptShown (view : PromptView).  (* 200 *)

(** The number inside a template string. *)
Definition showNumber (n : option Z) : string :=
  match n with
  | Some n => pretty n
  | None => "NaN"
  end.

(** [user] is [req.user], [promptNumber] the value of
    [parseInt(req.params.number)] and [letter] the optional route
    parameter. *)
Definition getPrompt (user : option Z) (promptNumber : option Z)
    (letter : option string) (prompts : list Prompt) : PromptResponse :=
  match user with
  | None => PromptNotAuthenticated
  | Some _ =>
    let promptLetter := orString letter "a" in
    let allPrompts := selectAvailablePrompts prompts in
    if bool_decide (allPrompts = []) then NoPromptsAvailable
    else
      match snd <$> list_find
              (λ p, promptNumber = Some (prompt_promptNumber p)
                    ∧ prompt_promptLetter p = promptLetter) allPrompts with
      | Some prompt =>
          PromptShown
            {| view_id := prompt_id prompt;
               view_promptNumber := Some (prompt_promptNumber prompt);
               view_promptLetter := prompt_promptLetter prompt;
               view_entry := None;
               view_content := prompt_content prompt;
               view_isPlaceholder := false |}
      | None =>
        match snd <$> list_find
                (λ p, promptNumber = Some (prompt_promptNumber p))
                allPrompts with
        | Some anyPromptWithNumber =>
            PromptShown
              {| view_id := prompt_id anyPromptWithNumber;
                 view_promptNumber :=
                   Some (prompt_promptNumber anyPromptWithNumber);
                 view_promptLetter := promptLetter;
                 view_entry := None;
                 view_content :=
                   "[This is a placeholder for prompt "
                   +:+ showNumber promptNumber +:+ promptLetter
                   +:+ ". Using content from " +:+ showNumber promptNumber
                   +:+ prompt_promptLetter anyPromptWithNumber
                   +:+ " for now.]";
                 view_isPlaceholder := true |}
        | None =>
          match maxOf (prompt_promptNumber <$> allPrompts),
                head allPrompts with
          | Some maxPromptNumber, Some firstPrompt =>
              let fallbackPromptNumber := Z.min maxPromptNumber 15 in
              let fallbackPrompt :=
                default firstPrompt
                  (findPromptNumber fallbackPromptNumber allPrompts) in
              PromptShown
                {| view_id := prompt_id fallbackPrompt;
                   view_promptNumber := promptNumber;
                   view_promptLetter := promptLetter;
                   view_entry := Some "placeholder"%string;
                   view_content :=
                     "[Prompt " +:+ showNumber promptNumber +:+ promptLetter
                     +:+ " - Please work with your game master to create content for this prompt]";
                   view_isPlaceholder := true |}
          | _, _ => NoPromptsAvailable
          end
        end
      end
  end.

(** ** The handler [DELETE /api/character/:id] *)

Inductive DeleteResponse :=
  | DeleteNotAuthenticated            (* 401 *)
  | InvalidCharacterId                (* 400 *)
  | DeleteCharacterNotFound           (* 404 *)
  | CharacterDeleted (characterId : Z).  (* 200 *)

(** [characterId] is the value of [parseInt(req.params.id)], [None] for
    [NaN].  The prompt history of the character is deleted first, then the
    character. *)
Definition deleteCharacter (user : option Z) (characterId : option Z)
    (db : Db) : Db * DeleteResponse :=
  match user with
  | None => (db, DeleteNotAuthenticated)
  | Some userId =>
    match characterId with
    | None => (db, InvalidCharacterId)
    | Some characterId =>
      match selectCharacter characterId userId (db_characters db) with
      | None => (db, DeleteCharacterNotFound)
      | Some _ =>
          ({| db_characters :=
                filter (λ c, ¬ (character_id c = characterId
                                ∧ character_userId c = userId))
                       (db_characters db);
              db_prompts := db_prompts db;
              db_promptHistory :=
                filter (λ h, history_characterId h ≠ characterId)
                       (db_promptHistory db) |},
           CharacterDeleted characterId)
      end
    end
  end.

(** Every history entry names a stored character and a stored prompt
    (the two references of [prompt_history] in schema.ts). *)
Definition referentialIntegrity (db : Db) : Prop :=
  ∀ h, h ∈ db_promptHistory db →
    (∃ c, c ∈ db_characters db ∧ character_id c = history_characterId h)
    ∧ (∃ p, p ∈ db_prompts db ∧ prompt_id p = history_promptId h).

(** ** The memory list of the client (memory-list.tsx, game-interface.tsx,
    prompt-system.tsx)

    Each handler is modelled by the value it passes to [onUpdate] or
    [onSave]; [None] is a return without an update. *)

(** All experiences of a pool, memory after memory. *)
Definition allExperiences (memories : list Memory) : list Experience :=
  concat (experiences <$> memories).

Definition withExperiences (memory : Memory) (es : list Experience) : Memory :=
  {| id := id memory; title := title memory; experiences := es;
     inDiary := inDiary memory; strikedOut := strikedOut memory |}.

(** [MemoryList.handleCreateMemory].  [trim] is [String.prototype.trim];
    [newId] is the value of [nanoid()]. *)
Definition handleCreateMemory (trim : string → string) (newId now : string)
    (newExperience : string) (memories : list Memory)
  : option (list Memory) :=
  if (5 <=? activeMemoriesCount memories)%nat then None
  else if bool_decide (trim newExperience = EmptyString) then None
  else
    Some (memories
          ++ [ {| id := newId;
                  title := "Memory " +:+ pretty (length memories + 1)%nat;
                  experiences :=
                    [ {| text := newExperience; createdAt := now |} ];
                  inDiary := false;
                  strikedOut := false |} ]).

(** [MemoryList.handleStrikeOut] *)
Definition handleStrikeOut (memoryId : string) (memories : list Memory)
  : option (list Memory) :=
  match list_find (λ m, id m = memoryId) memories with
  | None => None
  | Some _ =>
      Some ((λ memory,
               if bool_decide (id memory = memoryId)
               then {| id := id memory; title := title memory;
                       experiences := experiences memory;
                       inDiary := inDiary memory; strikedOut := true |}
               else memory) <$> memories)
  end.

(** [MemoryList.handleDeleteExperience] *)
Definition handleDeleteExperience (memoryId : string) (experienceIndex : nat)
    (memories : list Memory) : option (list Memory) :=
  match list_find (λ m, id m = memoryId) memories with
  | None => None
  | Some (memoryIndex, memory) =>
      if (length (experiences memory) <=? experienceIndex)%nat then None
      else
        Some (<[memoryIndex :=
                 withExperiences memory
                   (delete experienceIndex (experiences memory))]> memories)
  end.

(** [PromptSystem.addExperienceToMemory]: [experience] and
    [selectedMemoryId] are the fields of the dialog state, [None] for
    [null]. *)
Definition addExperienceToMemory (experience selectedMemoryId : option string)
    (now : string) (memories : list Memory) : option (list Memory) :=
  match experience, selectedMemoryId with
  | Some (String c e), Some (String d i) =>
      match list_find (λ m, id m = String d i) memories with
      | None => None
      | Some (memoryIndex, memory) =>
          if (3 <=? length (experiences memory))%nat then None
          else
            Some (<[memoryIndex :=
                     withExperiences memory
                       (experiences memory
                        ++ [ {| text := String c e; createdAt := now |} ])]>
                    memories)
      end
  | _, _ => None
  end.

(** [GameInterface.handleMoveToDiary], the [memories] it saves: the diary
    and the resources it saves beside them are columns outside this
    model. *)
Definition moveToDiaryMemories (memory : Memory) (memories : list Memory)
  : list Memory :=
  (λ m,
     if bool_decide (id m = id memory)
     then {| id := id m; title := title m; experiences := experiences m;
             inDiary := true; strikedOut := strikedOut m |}
     else m) <$> memories.

(** A pool filled by responses alone: every memory is neither in a diary
    nor struck out and holds one to three experiences, and every memory but
    the last holds three. *)
Definition filledInOrder (memories : list Memory) : Prop :=
  Forall (λ m, inDiary m = false ∧ strikedOut m = false
               ∧ (1 ≤ length (experiences m) ≤ 3)%nat) memories
  ∧ ∀ i m, memories !! i = Some m → (S i < length memories)%nat →
           length (experiences m) = 3%nat.

(** ** Traits (game-interface.tsx) *)

(** A skill, resource, character or mark; [checked] and [strikedOut] are
    optional fields. *)
Record Trait := mkTrait {
  trait_name : string;
  trait_checked : option bool;
  trait_strikedOut : option bool
}.

Inductive TraitAction := CheckTrait | StrikeTrait | AddTrait.

(** [GameInterface.updateTrait] *)
Definition updateTrait (traits : list Trait) (name : string)
    (action : TraitAction) : list Trait :=
  match action with
  | AddTrait =>
      traits ++ [ {| trait_name := name; trait_checked := None;
                     trait_strikedOut := None |} ]
  | _ =>
      (λ trait,
         if bool_decide (trait_name trait = name) then
           match action with
           | CheckTrait =>
               {| trait_name := trait_name trait; trait_checked := Some true;
                  trait_strikedOut := trait_strikedOut trait |}
           | StrikeTrait =>
               {| trait_name := trait_name trait;
                  trait_checked := trait_checked trait;
                  trait_strikedOut := Some true |}
           | AddTrait => trait
           end
         else trait) <$> traits
  end.

(** ** Lemmas on the visit record *)

Lemma includes_true {A} `{EqDecision A} (x : A) (l : list A) :
  includes x l = true ↔ x ∈ l.
Proof. unfold includes. apply bool_decide_eq_true. Qed.

Lemma includes_false {A} `{EqDecision A} (x : A) (l : list A) :
  includes x l = false ↔ x ∉ l.
Proof. unfold includes. apply bool_decide_eq_false. Qed.

Lemma findVisited_nil n : findVisited n [] = None.
Proof. reflexivity. Qed.

Lemma findVisited_cons n e visited :
  findVisited n (e :: visited) =
    if decide (promptNumber e = n) then Some e else findVisited n visited.
Proof.
  unfold findVisited. cbn. case_decide; [done|].
  destruct (list_find _ visited) as [[i x]|]; done.
Qed.

Lemma findVisited_Some n e visited :
  findVisited n visited = Some e → e ∈ visited ∧ promptNumber e = n.
Proof.
  induction visited as [|x visited IH]; [done|].
  rewrite findVisited_cons. case_decide.
  - intros [= ->]. split; [left | done].
  - intros [? ?]%IH. split; [by right | done].
Qed.


Lemma isVisited_cons e visited n l :
  isVisited (e :: visited) n l ↔
    if decide (promptNumber e = n) then l ∈ letters e else isVisited visited n l.
Proof.
  unfold isVisited. rewrite findVisited_cons. case_decide; naive_solver.
Qed.

(** With one entry per number, the first entry is the only one: reading
    through [find] agrees with plain membership. *)
Lemma isVisited_elem_of visited n l :
  NoDup (promptNumber <$> visited) →
  isVisited visited n l ↔ ∃ e, e ∈ visited ∧ promptNumber e = n ∧ l ∈ letters e.
Proof.
  induction visited as [|x visited IH].
  - intros _. unfold isVisited. split.
    + intros (e & He & _). done.
    + intros (e & He%elem_of_nil & _). done.
  - rewrite fmap_cons. intros [Hx Hnd]%NoDup_cons. rewrite isVisited_cons. case_decide as Hn.
    + split; [intros; exists x; split_and!; [left|done..] |].
      intros (e & [->|He]%elem_of_cons & Hen & Hl); [done|].
      exfalso. apply Hx. rewrite Hn, <- Hen. by apply list_elem_of_fmap_2.
    + rewrite (IH Hnd). split.
      * intros (e & ? & ? & ?). exists e. split_and!; [by right|done..].
      * intros (e & [->|He]%elem_of_cons & Hen & Hl); [done|]. eauto.
Qed.

Lemma trackVisited_nil n l :
  trackVisited [] n l = [ {| promptNumber := n; letters := [l] |} ].
Proof. reflexivity. Qed.

Lemma trackVisited_cons e visited n l :
  trackVisited (e :: visited) n l =
    if decide (promptNumber e = n) then
      if includes l (letters e) then e :: visited
      else pushLetter l e :: visited
    else e :: trackVisited visited n l.
Proof.
  unfold trackVisited. cbn. case_decide; [done|].
  destruct (list_find _ visited) as [[i x]|]; cbn; [|done].
  destruct (includes l (letters x)); done.
Qed.

(** The letters read back after tracking [(n, l)]: those read before, and
    [l] at [n]. *)
Lemma isVisited_trackVisited visited n l m k :
  isVisited (trackVisited visited n l) m k ↔
    isVisited visited m k ∨ (m = n ∧ k = l).
Proof.
  induction visited as [|e visited IH].
  - rewrite trackVisited_nil, isVisited_cons. cbn. case_decide.
    + rewrite list_elem_of_singleton. unfold isVisited. naive_solver.
    + unfold isVisited. naive_solver.
  - rewrite trackVisited_cons. case_decide as Hn.
    + destruct (includes l (letters e)) eqn:Hinc.
      * apply includes_true in Hinc. rewrite isVisited_cons.
        case_decide; naive_solver.
      * rewrite !isVisited_cons. cbn. case_decide.
        -- rewrite elem_of_app, list_elem_of_singleton. naive_solver.
        -- naive_solver.
    + rewrite !isVisited_cons. case_decide; naive_solver.
Qed.

Lemma trackVisited_visited visited n l :
  isVisited visited n l → trackVisited visited n l = visited.
Proof.
  induction visited as [|e visited IH].
  - intros (e & He & _). done.
  - rewrite isVisited_cons, trackVisited_cons. case_decide.
    + intros Hl%includes_true. by rewrite Hl.
    + intros Hv. by rewrite IH.
Qed.

Lemma trackVisited_keys visited n l :
  promptNumber <$> trackVisited visited n l =
    if decide (n ∈ promptNumber <$> visited) then promptNumber <$> visited
    else (promptNumber <$> visited) ++ [n].
Proof.
  induction visited as [|e visited IH].
  - cbn. case_decide as H; [by apply elem_of_nil in H | done].
  - rewrite trackVisited_cons, fmap_cons.
    destruct (decide (promptNumber e = n)) as [Hn|Hn].
    + destruct (decide (n ∈ _ :: _)) as [_|Hc].
      * destruct (includes l (letters e)); done.
      * exfalso. apply Hc. rewrite Hn. left.
    + rewrite fmap_cons, IH.
      destruct (decide (n ∈ promptNumber <$> visited)) as [Hin|Hin].
      * destruct (decide (n ∈ _ :: _)) as [_|Hc]; [done|].
        exfalso. apply Hc. by right.
      * destruct (decide (n ∈ _ :: _)) as [Hc|_]; [|done].
        apply elem_of_cons in Hc. naive_solver.
Qed.

Lemma trackVisited_noDuplicates visited n l :
  noDuplicates visited → noDuplicates (trackVisited visited n l).
Proof.
  intros [Hk Hl]. split.
  - rewrite trackVisited_keys. case_decide; [done|].
    apply NoDup_app. split_and!; [done| |apply NoDup_singleton].
    intros x Hx ->%list_elem_of_singleton. done.
  - clear Hk. induction Hl as [|e visited He Hl IH].
    + rewrite trackVisited_nil. repeat constructor; cbn.
      * apply not_elem_of_nil.
    + rewrite trackVisited_cons. case_decide.
      * destruct (includes l (letters e)) eqn:Hinc; constructor; try done.
        cbn. apply NoDup_app. split_and!; [done| |apply NoDup_singleton].
        intros x Hx ->%list_elem_of_singleton.
        by apply includes_false in Hinc.
      * by constructor.
Qed.

Lemma isVisited_includes visited n e l :
  findVisited n visited = Some e →
  isVisited visited n l ↔ includes l (letters e) = true.
Proof.
  intros He. unfold isVisited. rewrite He, includes_true. naive_solver.
Qed.

Lemma not_isVisited_unknown visited n l :
  findVisited n visited = None → ¬ isVisited visited n l.
Proof. intros Hn (e & He & _). congruence. Qed.

(** *** The sorted prompt numbers *)

Lemma uniquePromptNumbers_acc (acc nums : list Z) :
  NoDup acc →
  NoDup (foldl (λ unique num,
                  if includes num unique then unique else unique ++ [num])
               acc nums)
  ∧ ∀ x, x ∈ foldl (λ unique num,
                      if includes num unique then unique else unique ++ [num])
                   acc nums
         ↔ x ∈ acc ∨ x ∈ nums.
Proof.
  revert acc. induction nums as [|num nums IH]; intros acc Hacc; cbn.
  - split; [done|]. intros x. rewrite elem_of_nil. naive_solver.
  - destruct (includes num acc) eqn:Hinc.
    + apply includes_true in Hinc. destruct (IH acc Hacc) as [Hnd Hel].
      split; [done|]. intros x. rewrite Hel, elem_of_cons. naive_solver.
    + apply includes_false in Hinc.
      assert (Hacc' : NoDup (acc ++ [num])).
      { apply NoDup_app. split_and!; [done| |apply NoDup_singleton].
        intros x Hx ->%list_elem_of_singleton. done. }
      destruct (IH _ Hacc') as [Hnd Hel]. split; [done|].
      intros x. rewrite Hel, elem_of_app, list_elem_of_singleton, elem_of_cons.
      naive_solver.
Qed.

Lemma elem_of_sortedPromptNumbers availablePrompts x :
  x ∈ sortedPromptNumbers availablePrompts
  ↔ x ∈ prompt_promptNumber <$> availablePrompts.
Proof.
  unfold sortedPromptNumbers, uniquePromptNumbers.
  rewrite merge_sort_Permutation.
  destruct (uniquePromptNumbers_acc [] (prompt_promptNumber <$> availablePrompts)
              (NoDup_nil_2)) as [_ Hel].
  rewrite Hel, elem_of_nil. naive_solver.
Qed.

Lemma NoDup_sortedPromptNumbers availablePrompts :
  NoDup (sortedPromptNumbers availablePrompts).
Proof.
  unfold sortedPromptNumbers, uniquePromptNumbers.
  rewrite merge_sort_Permutation.
  apply (uniquePromptNumbers_acc [] _ (NoDup_nil_2)).
Qed.

Lemma StronglySorted_sortedPromptNumbers availablePrompts :
  StronglySorted Z.le (sortedPromptNumbers availablePrompts).
Proof. apply StronglySorted_merge_sort; apply _. Qed.

(** The navigator sees the catalogue through the set of its prompt
    numbers alone; in particular the order in which the query returns the
    rows of one prompt number has no effect. *)
Lemma sortedPromptNumbers_ext availablePrompts availablePrompts' :
  (∀ x, x ∈ prompt_promptNumber <$> availablePrompts
        ↔ x ∈ prompt_promptNumber <$> availablePrompts') →
  sortedPromptNumbers availablePrompts = sortedPromptNumbers availablePrompts'.
Proof.
  intros Hext. apply (Sorted_unique Z.le).
  - apply Sorted_merge_sort; apply _.
  - apply Sorted_merge_sort; apply _.
  - apply NoDup_Permutation; [apply NoDup_sortedPromptNumbers..|].
    intros x. by rewrite !elem_of_sortedPromptNumbers.
Qed.

Lemma advance_catalogue_order cur cl diceRoll visited
    availablePrompts availablePrompts' :
  availablePrompts ≡ₚ availablePrompts' →
  advance cur cl diceRoll visited availablePrompts
    = advance cur cl diceRoll visited availablePrompts'.
Proof.
  intros Hperm. unfold advance, nextPosition, sameDice.
  rewrite (sortedPromptNumbers_ext availablePrompts availablePrompts'); [done|].
  intros x. by rewrite Hperm.
Qed.

Lemma strictly_sorted_middle (pre post : list Z) x :
  StronglySorted Z.le (pre ++ x :: post) →
  NoDup (pre ++ x :: post) →
  (∀ y, y ∈ pre → y < x) ∧ (∀ y, y ∈ post → x < y).
Proof.
  intros (Hle & _ & [Hpost _]%StronglySorted_cons)%StronglySorted_app
         (_ & Hne & [Hx _]%NoDup_cons)%NoDup_app.
  rewrite Forall_forall in Hpost. split.
  - intros y Hy. specialize (Hle y x Hy ltac:(left)).
    specialize (Hne y Hy). rewrite not_elem_of_cons in Hne. lia.
  - intros y Hy. specialize (Hpost y Hy).
    assert (x ≠ y) by (intros ->; done). lia.
Qed.

Lemma indexOf_Some n l i :
  indexOf n l = Some i → l = take i l ++ n :: drop (S i) l.
Proof.
  unfold indexOf. intros ([j x] & Hf & Hi)%fmap_Some. cbn in Hi. subst j.
  apply list_find_Some in Hf as (Hl & -> & _).
  by rewrite take_drop_middle.
Qed.

Lemma indexOf_None n l : indexOf n l = None → n ∉ l.
Proof.
  unfold indexOf. intros Hf%fmap_None. apply list_find_None in Hf.
  rewrite Forall_forall in Hf. intros Hn. by apply (Hf n).
Qed.

Lemma last_sorted_max (l : list Z) m :
  StronglySorted Z.le l → last l = Some m →
  m ∈ l ∧ ∀ k, k ∈ l → k ≤ m.
Proof.
  intros Hs (l' & ->)%last_Some. split.
  - apply elem_of_app. right. left.
  - apply StronglySorted_app in Hs as (Hle & _ & _).
    intros k [Hk| ->%list_elem_of_singleton]%elem_of_app; [|lia].
    apply Hle; [done|left].
Qed.

(** *** The redirect loop *)

Lemma three_letters (l : list string) :
  "a"%string ∈ l → "b"%string ∈ l → "c"%string ∈ l → (3 ≤ length l)%nat.
Proof.
  intros Ha Hb Hc.
  assert (Hsub : ["a"; "b"; "c"]%string ⊆+ l).
  { apply NoDup_submseteq.
    - repeat (apply NoDup_cons; split;
              [rewrite ?elem_of_cons, ?elem_of_nil; naive_solver|]).
      apply NoDup_nil_2.
    - intros x. rewrite !elem_of_cons, elem_of_nil. naive_solver. }
  apply submseteq_length in Hsub. exact Hsub.
Qed.

Lemma notFullyVisited_spec visited n :
  notFullyVisited (findVisited n visited) = true ↔ ¬ fullyVisited visited n.
Proof.
  unfold fullyVisited. destruct (findVisited n visited) as [e|] eqn:He.
  - rewrite !(isVisited_includes _ _ _ _ He). unfold notFullyVisited.
    destruct (includes "a"%string (letters e)) eqn:Ha,
             (includes "b"%string (letters e)) eqn:Hb,
             (includes "c"%string (letters e)) eqn:Hc;
      cbn [negb]; rewrite ?orb_true_r, ?orb_false_r; try naive_solver.
    apply includes_true in Ha, Hb, Hc.
    pose proof (three_letters _ Ha Hb Hc) as Hlen.
    destruct (Nat.ltb_spec (length (letters e)) 3); [lia|].
    split; [done|]. intros Hn. by destruct Hn.
  - cbn. split; [|done]. intros _ [Ha _].
    by apply (not_isVisited_unknown _ _ _ He) in Ha.
Qed.

Lemma notFullyVisited_false visited n :
  notFullyVisited (findVisited n visited) = false → fullyVisited visited n.
Proof.
  unfold fullyVisited. destruct (findVisited n visited) as [e|] eqn:He; [|done].
  rewrite !(isVisited_includes _ _ _ _ He). unfold notFullyVisited.
  destruct (includes "a"%string (letters e)),
           (includes "b"%string (letters e)),
           (includes "c"%string (letters e));
    cbn [negb]; rewrite ?orb_true_r, ?orb_false_r; naive_solver.
Qed.


Lemma scanCandidates_Some visited candidates n l :
  scanCandidates visited candidates = Some (n, l) →
  ∃ pre post,
    candidates = pre ++ n :: post
    ∧ (∀ k, k ∈ pre → fullyVisited visited k)
    ∧ ¬ fullyVisited visited n
    ∧ l = redirectLetter (findVisited n visited).
Proof.
  induction candidates as [|c candidates IH]; [done|]. cbn.
  destruct (notFullyVisited (findVisited c visited)) eqn:Hc.
  - intros [= -> <-]. exists [], candidates. split_and!; [done| | |done].
    + intros k Hk. by apply elem_of_nil in Hk.
    + by apply notFullyVisited_spec.
  - intros (pre & post & -> & Hpre & Hn & Hl)%IH.
    exists (c :: pre), post. split_and!; [done| |done..].
    intros k [->|Hk]%elem_of_cons; [|by apply Hpre].
    by apply notFullyVisited_false.
Qed.

Lemma scanCandidates_None visited candidates :
  scanCandidates visited candidates = None →
  ∀ k, k ∈ candidates → fullyVisited visited k.
Proof.
  induction candidates as [|c candidates IH]; cbn.
  - intros _ k Hk. by apply elem_of_nil in Hk.
  - destruct (notFullyVisited (findVisited c visited)) eqn:Hc; [done|].
    intros Hs k [->|Hk]%elem_of_cons; [|by apply IH].
    by apply notFullyVisited_false.
Qed.

(** The redirect of [sameDice] from letter c, for a current number that is
    one of the catalogue's: either the first catalogue number above it that
    is not fully visited, or one above the highest catalogue number. *)
Lemma sameDice_redirect cur visited availablePrompts :
  cur ∈ prompt_promptNumber <$> availablePrompts →
  ∃ n l,
    sameDice cur "c" visited availablePrompts = (n, l)
    ∧ cur < n
    ∧ ((n ∈ prompt_promptNumber <$> availablePrompts
        ∧ ¬ fullyVisited visited n
        ∧ (∀ k, k ∈ prompt_promptNumber <$> availablePrompts →
                cur < k < n → fullyVisited visited k)
        ∧ l = redirectLetter (findVisited n visited))
       ∨ ((∀ k, k ∈ prompt_promptNumber <$> availablePrompts →
                cur < k → fullyVisited visited k)
          ∧ n - 1 ∈ prompt_promptNumber <$> availablePrompts
          ∧ (∀ k, k ∈ prompt_promptNumber <$> availablePrompts → k < n)
          ∧ l = "a"%string)).
Proof.
  intros Hcur%elem_of_sortedPromptNumbers.
  pose proof (StronglySorted_sortedPromptNumbers availablePrompts) as Hs.
  pose proof (NoDup_sortedPromptNumbers availablePrompts) as Hnd.
  unfold sameDice. cbn [String.eqb Ascii.eqb Bool.eqb].
  setoid_rewrite <- elem_of_sortedPromptNumbers.
  set (sorted := sortedPromptNumbers availablePrompts) in *.
  destruct (indexOf cur sorted) as [i|] eqn:Hi;
    [|by apply indexOf_None in Hi].
  apply indexOf_Some in Hi.
  set (pre0 := take i sorted) in *. set (post0 := drop (S i) sorted) in *.
  destruct (strictly_sorted_middle pre0 post0 cur) as [Hlt Hgt];
    [by rewrite <- Hi..|].
  destruct (scanCandidates visited post0) as [[n l]|] eqn:Hscan.
  - apply scanCandidates_Some in Hscan as (pre & post & Hpost & Hpre & Hn & ->).
    assert (Hsplit : sorted = (pre0 ++ cur :: pre) ++ n :: post).
    { rewrite Hi, Hpost. by rewrite <- app_assoc. }
    destruct (strictly_sorted_middle (pre0 ++ cur :: pre) post n)
      as [Hlt' Hgt']; [by rewrite <- Hsplit..|].
    exists n, (redirectLetter (findVisited n visited)).
    split; [done|]. split.
    { apply Hgt. rewrite Hpost. apply elem_of_app. right. left. }
    left. split_and!; [|done| |done].
    + rewrite Hsplit. apply elem_of_app. right. left.
    + intros k Hk [Hk1 Hk2]. rewrite Hsplit in Hk.
      apply elem_of_app in Hk as [Hk|Hk].
      * apply elem_of_app in Hk as [Hk|Hk].
        -- apply Hlt in Hk. lia.
        -- apply elem_of_cons in Hk as [->|Hk]; [lia|]. by apply Hpre.
      * apply elem_of_cons in Hk as [->|Hk]; [lia|]. apply Hgt' in Hk. lia.
  - pose proof (scanCandidates_None _ _ Hscan) as Hall.
    destruct (last sorted) as [highest|] eqn:Hlast.
    + destruct (last_sorted_max _ _ Hs Hlast) as [Hin Hmax].
      exists (highest + 1), "a"%string. split; [done|]. split.
      { specialize (Hmax cur Hcur). lia. }
      right. split_and!; [| | |done].
      * intros k Hk Hck. rewrite Hi in Hk.
        apply elem_of_app in Hk as [Hk|Hk]; [apply Hlt in Hk; lia|].
        apply elem_of_cons in Hk as [->|Hk]; [lia|]. by apply Hall.
      * by replace (highest + 1 - 1) with highest by lia.
      * intros k Hk. specialize (Hmax k Hk). lia.
    + apply last_None in Hlast. rewrite Hlast in Hcur.
      by apply elem_of_nil in Hcur.
Qed.

(** From letter c on a number the catalogue does not have, [sameDice] does
    not redirect: it stays on the number and steps to the letter after c. *)
Lemma sameDice_unknown_number cur visited availablePrompts :
  cur ∉ prompt_promptNumber <$> availablePrompts →
  sameDice cur "c" visited availablePrompts = (cur, "d"%string).
Proof.
  intros Hcur. unfold sameDice. cbn [String.eqb Ascii.eqb Bool.eqb].
  destruct (indexOf cur (sortedPromptNumbers availablePrompts)) as [i|] eqn:Hi;
    [|done].
  exfalso. apply Hcur, elem_of_sortedPromptNumbers.
  apply indexOf_Some in Hi. rewrite Hi. apply elem_of_app. right. left.
Qed.

(** ** The navigator *)



(** On a record with one entry per prompt number, what the handler reads
    back is what the record holds. *)
Lemma recorded_isVisited visited n l :
  NoDup (promptNumber <$> visited) →
  recorded visited n l ↔ isVisited visited n l.
Proof. intros Hnd. symmetry. by apply isVisited_elem_of. Qed.


Lemma findVisited_middle n pre e post :
  (∀ x, x ∈ pre → promptNumber x ≠ n) → promptNumber e = n →
  findVisited n (pre ++ e :: post) = Some e.
Proof.
  intros Hpre He. induction pre as [|x pre IH]; cbn [app].
  - rewrite findVisited_cons. by rewrite decide_True.
  - rewrite findVisited_cons. rewrite decide_False by (apply Hpre; left).
    apply IH. intros y Hy. apply Hpre. by right.
Qed.

Lemma revisitLetter_spec (ls : list string) :
  ("a"%string ∉ ls → revisitLetter ls = "a"%string)
  ∧ ("a"%string ∈ ls → "b"%string ∉ ls → revisitLetter ls = "b"%string)
  ∧ ("a"%string ∈ ls → "b"%string ∈ ls → revisitLetter ls = "c"%string).
Proof.
  unfold revisitLetter.
  destruct (includes "a"%string ls) eqn:Ha,
           (includes "b"%string ls) eqn:Hb,
           (includes "c"%string ls) eqn:Hc;
    rewrite ?includes_true, ?includes_false in *; cbn; naive_solver.
Qed.

(** C1 (amended): with a non-zero movement the next number is
    [max 1 (current + movement)], the floor applied after the addition.
    The next letter is read from the first entry that the record holds for
    that number: a when there is no such entry or it does not list a, else
    b when it does not list b, else c, also when it lists a, b and c.  On a
    record with one entry per prompt number this is: a when (number, a) is
    not recorded, else b when (number, b) is not, else c. *)
Theorem advance_nonzero_movement cur cl diceRoll visited availablePrompts :
  movementOf diceRoll ≠ 0 →
  let n := Z.max 1 (cur + (d10 diceRoll - d6 diceRoll)) in
  ∃ l,
    fst (advance cur cl diceRoll visited availablePrompts) = (n, l)
    ∧ ((∀ e, e ∈ visited → promptNumber e ≠ n) → l = "a"%string)
    ∧ (∀ pre e post,
         visited = pre ++ e :: post →
         (∀ x, x ∈ pre → promptNumber x ≠ n) →
         promptNumber e = n →
         ("a"%string ∉ letters e → l = "a"%string)
         ∧ ("a"%string ∈ letters e → "b"%string ∉ letters e → l = "b"%string)
         ∧ ("a"%string ∈ letters e → "b"%string ∈ letters e → l = "c"%string))
    ∧ (NoDup (promptNumber <$> visited) →
       (¬ recorded visited n "a" → l = "a"%string)
       ∧ (recorded visited n "a" → ¬ recorded visited n "b" → l = "b"%string)
       ∧ (recorded visited n "a" → recorded visited n "b" → l = "c"%string)).
Proof.
  intros Hm. cbn zeta. unfold advance, nextPosition. cbn [fst].
  fold (movementOf diceRoll).
  destruct (Z.eqb_spec (movementOf diceRoll) 0) as [|_]; [done|].
  set (n := Z.max 1 (cur + movementOf diceRoll)).
  destruct (findVisited n visited) as [e|] eqn:He.
  - exists (revisitLetter (letters e)). split; [done|].
    pose proof (findVisited_Some _ _ _ He) as [Hin Hn].
    pose proof (revisitLetter_spec (letters e)) as Hspec.
    split_and!.
    + intros Hnone. by destruct (Hnone e Hin).
    + intros pre e' post -> Hpre He'.
      rewrite (findVisited_middle _ _ _ _ Hpre He') in He.
      by injection He as ->.
    + intros Hnd. rewrite !(recorded_isVisited _ _ _ Hnd).
      rewrite !(isVisited_includes _ _ _ _ He), !includes_true.
      destruct Hspec as (Ha & Hb & Hc). split_and!; eauto.
  - exists "a"%string. split; [done|]. split_and!.
    + done.
    + intros pre e' post -> Hpre He'.
      by rewrite (findVisited_middle _ _ _ _ Hpre He') in He.
    + intros Hnd. rewrite !(recorded_isVisited _ _ _ Hnd).
      pose proof (not_isVisited_unknown _ _ "a"%string He).
      naive_solver.
Qed.

Lemma advance_nonzero_movement_witness :
  movementOf (mkDiceRoll 1 6) ≠ 0
  ∧ NoDup (promptNumber <$> [mkVisitedPrompt 1 ["a"]%string])
  ∧ recorded [mkVisitedPrompt 1 ["a"]%string] 1 "a"
  ∧ ¬ recorded [mkVisitedPrompt 1 ["a"]%string] 1 "b"
  ∧ fst (advance 5 "a" (mkDiceRoll 1 6) [mkVisitedPrompt 1 ["a"]%string]
           smallCatalogue)
    = (1, "b"%string).
Proof.
  assert (Hm : movementOf (mkDiceRoll 1 6) ≠ 0) by (by vm_compute).
  assert (Hnd : NoDup (promptNumber <$> [mkVisitedPrompt 1 ["a"]%string])).
  { cbn. apply NoDup_singleton. }
  assert (Ha : recorded [mkVisitedPrompt 1 ["a"]%string] 1 "a").
  { exists (mkVisitedPrompt 1 ["a"]%string). split_and!; [left|done|left]. }
  assert (Hb : ¬ recorded [mkVisitedPrompt 1 ["a"]%string] 1 "b").
  { intros (e & ->%list_elem_of_singleton & _ & Hl). cbn in Hl.
    by apply list_elem_of_singleton in Hl. }
  split_and!; [exact Hm|exact Hnd|exact Ha|exact Hb|].
  destruct (advance_nonzero_movement 5 "a" (mkDiceRoll 1 6)
              [mkVisitedPrompt 1 ["a"]%string] smallCatalogue Hm)
    as (l & Hl & _ & _ & Hrec).
  destruct (Hrec Hnd) as (_ & Hlb & _).
  rewrite Hl. f_equal. by apply Hlb.
Defined.

(** C1, as stated, fails on a record that lists a prompt number in two
    entries: (2, a) and (2, b) are both recorded and (2, c) is not, yet the
    move to 2 takes the letter a, which the first entry of 2 does not
    list. *)
Lemma advance_nonzero_movement_repeated_number :
  movementOf (mkDiceRoll 2 1) ≠ 0
  ∧ recorded repeatedRecord 2 "a"
  ∧ recorded repeatedRecord 2 "b"
  ∧ ¬ recorded repeatedRecord 2 "c"
  ∧ fst (advance 1 "a" (mkDiceRoll 2 1) repeatedRecord catalogue)
    = (2, "a"%string).
Proof.
  split_and!.
  - by vm_compute.
  - exists (mkVisitedPrompt 2 ["a"]%string).
    split_and!; [right; left|done|left].
  - exists (mkVisitedPrompt 2 ["b"]%string). split_and!; [left|done|left].
  - intros (e & He & _ & Hl). unfold repeatedRecord in He.
    rewrite !elem_of_cons, elem_of_nil in He.
    destruct He as [->|[->|[]]]; cbn in Hl;
      by apply list_elem_of_singleton in Hl.
  - reflexivity.
Qed.

(** C3 (amended): with equal dice and a current letter other than c the
    next position keeps the number and takes the following letter (a gives
    b, b gives c); the updated record holds what the input record held and
    that one position, which is new only when it had not been visited. *)
Theorem advance_same_dice_next_letter cur cl diceRoll visited availablePrompts :
  movementOf diceRoll = 0 →
  cl ≠ "c"%string →
  fst (advance cur cl diceRoll visited availablePrompts)
    = (cur, nextCharCode cl)
  ∧ (cl = "a"%string → nextCharCode cl = "b"%string)
  ∧ (cl = "b"%string → nextCharCode cl = "c"%string)
  ∧ (∀ m k,
       isVisited (snd (advance cur cl diceRoll visited availablePrompts)) m k
       ↔ isVisited visited m k ∨ (m = cur ∧ k = nextCharCode cl))
  ∧ (isVisited visited cur (nextCharCode cl) →
       snd (advance cur cl diceRoll visited availablePrompts) = visited).
Proof.
  intros Hm Hc.
  assert (Hpos : nextPosition cur cl diceRoll visited availablePrompts
                 = (cur, nextCharCode cl)).
  { unfold nextPosition. rewrite Hm. cbn. unfold sameDice.
    destruct (String.eqb_spec cl "c"); done. }
  unfold advance. rewrite Hpos. cbn [fst snd]. split_and!.
  - done.
  - by intros ->.
  - by intros ->.
  - intros m k. apply isVisited_trackVisited.
  - apply trackVisited_visited.
Qed.

Lemma advance_same_dice_next_letter_witness :
  movementOf (mkDiceRoll 5 5) = 0 ∧ "a"%string ≠ "c"%string
  ∧ fst (advance 1 "a" (mkDiceRoll 5 5) [] smallCatalogue)
      = (1, nextCharCode "a").
Proof.
  split; [reflexivity|]. split; [discriminate|].
  exact (proj1 (advance_same_dice_next_letter 1 "a" (mkDiceRoll 5 5) []
                  smallCatalogue eq_refl ltac:(discriminate))).
Defined.

(** C3, as stated, fails: a character that comes back to (1, a) after
    (1, b) was visited rolls equal dice, moves to (1, b), and the record
    gains no entry. *)
Lemma advance_same_dice_gains_nothing :
  let availablePrompts := catalogue in
  let rolls := [mkDiceRoll 5 5; mkDiceRoll 2 1; mkDiceRoll 1 2] in
  let visited := snd (play availablePrompts rolls) in
  fst (play availablePrompts rolls) = (1, "a"%string)
  ∧ movementOf (mkDiceRoll 3 3) = 0
  ∧ advance 1 "a" (mkDiceRoll 3 3) visited availablePrompts
      = ((1, "b"%string), visited).
Proof. vm_compute. done. Qed.

(** C5 (amended): the updated record holds every position of the input
    record and the chosen position, and nothing else; it is the input record
    itself when the chosen position had been visited; a record without
    repetition stays without repetition. *)
Theorem advance_history_grows cur cl diceRoll visited availablePrompts :
  let next := fst (advance cur cl diceRoll visited availablePrompts) in
  let visited' := snd (advance cur cl diceRoll visited availablePrompts) in
  (∀ m k, isVisited visited m k → isVisited visited' m k)
  ∧ isVisited visited' (fst next) (snd next)
  ∧ (∀ m k, isVisited visited' m k →
            isVisited visited m k ∨ (m, k) = next)
  ∧ (isVisited visited (fst next) (snd next) → visited' = visited)
  ∧ (noDuplicates visited → noDuplicates visited').
Proof.
  unfold advance. cbn [fst snd].
  destruct (nextPosition cur cl diceRoll visited availablePrompts) as [n l].
  cbn [fst snd]. split_and!.
  - intros m k H. apply isVisited_trackVisited. by left.
  - apply isVisited_trackVisited. by right.
  - intros m k [H|[-> ->]]%isVisited_trackVisited; [by left | by right].
  - apply trackVisited_visited.
  - apply trackVisited_noDuplicates.
Qed.

Lemma advance_history_grows_witness :
  noDuplicates [mkVisitedPrompt 1 ["b"%string]]
  ∧ noDuplicates
      (snd (advance 1 "b" (mkDiceRoll 6 6) [mkVisitedPrompt 1 ["b"%string]]
              smallCatalogue)).
Proof.
  assert (Hnd : noDuplicates [mkVisitedPrompt 1 ["b"%string]]).
  { split; [apply NoDup_singleton|].
    constructor; [apply NoDup_singleton | constructor]. }
  split; [exact Hnd|].
  exact (proj2 (proj2 (proj2 (proj2
    (advance_history_grows 1 "b" (mkDiceRoll 6 6)
       [mkVisitedPrompt 1 ["b"%string]] smallCatalogue)))) Hnd).
Defined.

(** C5, as stated, fails: the growth is not strict.  A character at (2, b)
    moves back by one to prompt 1, whose three letters are all in the
    record; it lands on (1, c) and the record is the one it came with. *)
Lemma advance_history_not_strict :
  let availablePrompts := catalogue in
  let rolls := [mkDiceRoll 5 5; mkDiceRoll 5 5; mkDiceRoll 2 1;
                mkDiceRoll 1 2; mkDiceRoll 2 1] in
  let visited := snd (play availablePrompts rolls) in
  fst (play availablePrompts rolls) = (2, "b"%string)
  ∧ advance 2 "b" (mkDiceRoll 1 2) visited availablePrompts
      = ((1, "c"%string), visited).
Proof. vm_compute. done. Qed.

Lemma nextPosition_same_dice cur cl diceRoll visited availablePrompts :
  movementOf diceRoll = 0 →
  fst (advance cur cl diceRoll visited availablePrompts)
    = sameDice cur cl visited availablePrompts.
Proof. intros Hm. unfold advance, nextPosition. by rewrite Hm. Qed.







(** ** The memory allocator *)

Lemma activeMemoriesCount_cons m memories :
  activeMemoriesCount (m :: memories) =
    ((if strikedOut m then 0 else 1) + activeMemoriesCount memories)%nat.
Proof.
  unfold activeMemoriesCount. rewrite filter_cons.
  destruct (strikedOut m); by case_decide.
Qed.

Lemma activeMemoriesCount_app memories1 memories2 :
  activeMemoriesCount (memories1 ++ memories2) =
    (activeMemoriesCount memories1 + activeMemoriesCount memories2)%nat.
Proof.
  unfold activeMemoriesCount. by rewrite filter_app, length_app.
Qed.

Lemma activeMemoriesCount_pushExperience e i memories :
  activeMemoriesCount (alter (pushExperience e) i memories)
    = activeMemoriesCount memories.
Proof.
  revert i. induction memories as [|m memories IH]; intros [|i]; try done.
  - cbn [alter list_alter]. by rewrite !activeMemoriesCount_cons.
  - cbn [alter list_alter]. rewrite !activeMemoriesCount_cons.
    f_equal. apply IH.
Qed.

(** The first open memory, as [findIndex] sees it. *)
Lemma list_find_isOpen pre m post :
  (∀ x, x ∈ pre → isOpen x = false) → isOpen m = true →
  list_find (λ memory, isOpen memory = true) (pre ++ m :: post)
    = Some (length pre, m).
Proof.
  intros Hpre Hm. apply list_find_Some. split_and!.
  - by rewrite list_lookup_middle.
  - done.
  - intros j y Hj Hlt. rewrite lookup_app_l in Hj by done.
    apply list_elem_of_lookup_2, Hpre in Hj. congruence.
Qed.

Lemma list_find_isOpen_None memories :
  list_find (λ memory, isOpen memory = true) memories = None
  ↔ ∀ x, x ∈ memories → isOpen x = false.
Proof.
  rewrite list_find_None, Forall_forall. split; intros H x Hx.
  - specialize (H x Hx). by destruct (isOpen x).
  - rewrite (H x Hx). done.
Qed.

Lemma alter_middle {A} (f : A → A) (pre : list A) x post :
  alter f (length pre) (pre ++ x :: post) = pre ++ f x :: post.
Proof. induction pre as [|y pre IH]; [done|]. cbn. by f_equal. Qed.

(** C6: [recordResponse] keeps the bounds of the pool: from a pool in
    which no memory has more than 3 experiences and at most 5 memories are
    not struck out, it returns such a pool. *)
Theorem recordResponse_poolInvariant newExperience newId promptTitle memories :
  poolInvariant memories →
  poolInvariant
    (fst (recordResponse newExperience newId promptTitle memories)).
Proof.
  intros [Hexp Hcount]. unfold recordResponse.
  destruct (list_find _ memories) as [[i m]|] eqn:Hfind; cbn [fst].
  - apply list_find_Some in Hfind as (Hi & Hopen & _). split.
    + rewrite Forall_forall in Hexp. apply Forall_forall. intros x Hx.
      apply list_elem_of_lookup in Hx as [j Hj].
      destruct (decide (i = j)) as [<-|Hne].
      * rewrite list_lookup_alter_eq, Hi in Hj. injection Hj as <-.
        unfold isOpen in Hopen. cbn. rewrite length_app. cbn.
        apply andb_true_iff in Hopen as [_ Hlen%Nat.ltb_lt]. lia.
      * rewrite list_lookup_alter_ne in Hj by done.
        by apply list_elem_of_lookup_2, Hexp in Hj.
    + by rewrite activeMemoriesCount_pushExperience.
  - destruct (Nat.ltb_spec (activeMemoriesCount memories) 5) as [Hlt|_];
      cbn [fst]; [|done].
    split.
    + apply Forall_app. split; [done|].
      apply Forall_singleton. cbn. lia.
    + rewrite activeMemoriesCount_app, activeMemoriesCount_cons. cbn. lia.
Qed.

Lemma recordResponse_poolInvariant_witness :
  poolInvariant [mkMemory "m1" "First" [mkExperience "x" "t0"] false false]
  ∧ poolInvariant
      (fst (recordResponse (mkExperience "y" "t1") "m2" "Second"
              [mkMemory "m1" "First" [mkExperience "x" "t0"] false false])).
Proof.
  assert (H : poolInvariant
                [mkMemory "m1" "First" [mkExperience "x" "t0"] false false]).
  { split; [apply Forall_singleton; cbn; lia | vm_compute; lia]. }
  split; [exact H|]. apply recordResponse_poolInvariant. exact H.
Defined.

(** C7 (amended): [recordResponse] answers [CapacityExceeded] exactly
    when 5 or more memories are not struck out and no memory is open; on a
    pool within its cap that is exactly when 5 memories are not struck out
    and none is open.  The pool it returns is then the pool it was given,
    and the same call on it answers [CapacityExceeded] again. *)
Theorem recordResponse_capacity newExperience newId promptTitle memories :
  (snd (recordResponse newExperience newId promptTitle memories)
     = CapacityExceeded
   ↔ (5 ≤ activeMemoriesCount memories)%nat
     ∧ ∀ m, m ∈ memories → isOpen m = false)
  ∧ ((activeMemoriesCount memories ≤ 5)%nat →
     (snd (recordResponse newExperience newId promptTitle memories)
        = CapacityExceeded
      ↔ activeMemoriesCount memories = 5%nat
        ∧ ∀ m, m ∈ memories → isOpen m = false))
  ∧ (snd (recordResponse newExperience newId promptTitle memories)
       = CapacityExceeded →
     fst (recordResponse newExperience newId promptTitle memories) = memories
     ∧ recordResponse newExperience newId promptTitle
         (fst (recordResponse newExperience newId promptTitle memories))
       = (memories, CapacityExceeded)).
Proof.
  unfold recordResponse.
  destruct (list_find _ memories) as [[i m]|] eqn:Hfind.
  - cbn [fst snd]. split_and!; [|intros _|done].
    + split; [done|]. intros [_ Hnone].
      apply list_find_isOpen_None in Hnone. congruence.
    + split; [done|]. intros [_ Hnone].
      apply list_find_isOpen_None in Hnone. congruence.
  - pose proof (proj1 (list_find_isOpen_None _) Hfind) as Hnone.
    destruct (Nat.ltb_spec (activeMemoriesCount memories) 5) as [Hlt|Hge];
      cbn [fst snd].
    + split_and!; [|intros _|done].
      * split; [done|]. intros [Hfive _]. lia.
      * split; [done|]. intros [Hfive _]. lia.
    + split_and!.
      * split; [|done]. intros _. by split.
      * intros Hcap. split; [|done]. intros _. split; [lia|done].
      * intros _. split; [done|]. rewrite Hfind.
        destruct (Nat.ltb_spec (activeMemoriesCount memories) 5); [lia|done].
Qed.

Lemma recordResponse_capacity_witness :
  (activeMemoriesCount fullPool ≤ 5)%nat
  ∧ recordResponse (mkExperience "four" "t4") "m6" "Memory" fullPool
      = (fullPool, CapacityExceeded).
Proof.
  assert (Hcap : (activeMemoriesCount fullPool ≤ 5)%nat) by (vm_compute; lia).
  split; [exact Hcap|].
  destruct (recordResponse_capacity (mkExperience "four" "t4") "m6" "Memory"
              fullPool) as (_ & Hiff & Hsame).
  assert (Hout : snd (recordResponse (mkExperience "four" "t4") "m6" "Memory"
                        fullPool) = CapacityExceeded).
  { apply (Hiff Hcap). split; [by vm_compute|].
    intros m Hm. unfold fullPool in Hm. cbn in Hm.
    rewrite !elem_of_cons, elem_of_nil in Hm.
    destruct Hm as [->|[->|[->|[->|[->|[]]]]]]; reflexivity. }
  destruct (Hsame Hout) as [Hfst _].
  rewrite <- Hfst at 2. rewrite <- Hout. apply surjective_pairing.
Defined.

(** C7, as stated, fails on a pool beyond its cap: with six memories not
    struck out and none open the answer is [CapacityExceeded], although
    the number of memories not struck out is not 5. *)
Lemma recordResponse_capacity_beyond_five :
  activeMemoriesCount poolOfSix = 6%nat
  ∧ (∀ m, m ∈ poolOfSix → isOpen m = false)
  ∧ recordResponse (mkExperience "four" "t4") "m6" "Memory" poolOfSix
    = (poolOfSix, CapacityExceeded).
Proof.
  split_and!; [reflexivity| |reflexivity].
  intros m Hm. unfold poolOfSix, fullPool in Hm. cbn in Hm.
  rewrite !elem_of_cons, elem_of_nil in Hm.
  destruct Hm as [->|[->|[->|[->|[->|[->|[]]]]]]]; reflexivity.
Qed.

(** ** The handler *)

Lemma insertByPromptNumber_Permutation p sorted :
  insertByPromptNumber p sorted ≡ₚ p :: sorted.
Proof.
  induction sorted as [|q rest IH]; [done|]. cbn.
  case_decide; [done|]. rewrite IH. apply Permutation_swap.
Qed.

Lemma selectAvailablePrompts_Permutation prompts :
  selectAvailablePrompts prompts ≡ₚ prompts.
Proof.
  unfold selectAvailablePrompts.
  induction prompts as [|p prompts IH]; [done|]. cbn.
  by rewrite insertByPromptNumber_Permutation, IH.
Qed.



(** The 201 path of the handler, written out, for a request of an
    authenticated user on one of their characters that names a stored
    prompt. *)
Section created.

Context (env : Env) (req : Request) (db : Db).
Context (userId : Z) (character : Character) (prompt : Prompt).
Hypothesis Huser : req_user req = Some userId.
Hypothesis Hcharacter :
  selectCharacter (req_characterId req) userId (db_characters db)
    = Some character.
Hypothesis Hprompt :
  selectPrompt (req_promptId req) (db_prompts db) = Some prompt.

Let cur := orNumber (req_promptNumber req) (currentPrompt character).
Let cl := orString (req_promptLetter req)
            (orString (Some (currentLetter character)) "a").
Let entry :=
  {| history_characterId := req_characterId req;
     history_promptId := req_promptId req;
     history_promptNumber := cur;
     history_promptLetter := cl;
     history_diceRoll := req_diceRoll req;
     history_response := req_response req;
     history_createdAt := env_now env |}.
Let allocation :=
  recordResponse {| text := req_response req; createdAt := env_now env |}
    (env_randomId env) (promptTitle (Some prompt) cur cl)
    (memories character).
Let updatedMemories :=
  match snd allocation with
  | CapacityExceeded => None
  | _ => Some (fst allocation)
  end.




End created.












(** ** Scenarios *)

(** Equal dice three times from (1, a): (1, b), (1, c), then the redirect
    to (2, a). *)
Example scenario_equal_dice :
  play catalogue [mkDiceRoll 5 5] = ((1, "b"%string), [mkVisitedPrompt 1 ["b"%string]])
  ∧ fst (play catalogue [mkDiceRoll 5 5; mkDiceRoll 6 6]) = (1, "c"%string)
  ∧ fst (play catalogue [mkDiceRoll 5 5; mkDiceRoll 6 6; mkDiceRoll 7 7])
      = (2, "a"%string).
Proof. by vm_compute. Qed.

(** A movement of -5 from (5, a) stops at prompt 1. *)
Example scenario_floor :
  fst (advance 5 "a" (mkDiceRoll 1 6) [] catalogue) = (1, "a"%string).
Proof. by vm_compute. Qed.

(** Once the character stands on a number the catalogue does not have,
    equal dice at letter c stay on the number and step to the letter d. *)
Example scenario_letter_d :
  fst (play smallCatalogue
         (replicate 5 (mkDiceRoll 5 5))) = (2, "c"%string)
  ∧ fst (play smallCatalogue
           (replicate 6 (mkDiceRoll 5 5))) = (2, "d"%string).
Proof. by vm_compute. Qed.

(** Five responses into an empty pool: two memories, of three and of two
    experiences. *)
Example scenario_five_responses :
  (λ m, length (experiences m))
    <$> fst (recordAll ["r1"; "r2"; "r3"; "r4"; "r5"]%string [])
  = [3; 2]%nat
  ∧ snd (recordAll ["r1"; "r2"; "r3"; "r4"; "r5"]%string [])
    = [Created; Appended; Appended; Created; Appended].
Proof. by vm_compute. Qed.

(** Fifteen responses fill five memories; the sixteenth finds no room and
    leaves the pool as it is. *)
Example scenario_sixteenth_response :
  let full := fst (recordAll (replicate 15 "r"%string) []) in
  (λ m, length (experiences m)) <$> full = [3; 3; 3; 3; 3]%nat
  ∧ recordResponse (mkExperience "r" "now") "m5" "Memory" full
    = (full, CapacityExceeded).
Proof. by vm_compute. Qed.

(** ** Further properties of the navigator *)

Lemma StronglySorted_le_lt (l : list Z) :
  StronglySorted Z.le l → NoDup l → StronglySorted Z.lt l.
Proof.
  induction l as [|x l IH]; [constructor|].
  intros [Hx Hl]%StronglySorted_cons [Hnin Hnd]%NoDup_cons.
  apply StronglySorted_cons. split; [|by apply IH].
  rewrite Forall_forall in Hx. apply Forall_forall. intros y Hy.
  specialize (Hx y Hy). assert (x ≠ y) by (intros ->; done). lia.
Qed.

(** X1: the sorted prompt numbers are the prompt numbers of the catalogue,
    each once, in strictly increasing order. *)
Theorem sortedPromptNumbers_strictly_increasing availablePrompts :
  StronglySorted Z.lt (sortedPromptNumbers availablePrompts)
  ∧ ∀ x, x ∈ sortedPromptNumbers availablePrompts
         ↔ ∃ p, p ∈ availablePrompts ∧ prompt_promptNumber p = x.
Proof.
  split.
  - apply StronglySorted_le_lt.
    + apply StronglySorted_sortedPromptNumbers.
    + apply NoDup_sortedPromptNumbers.
  - intros x. rewrite elem_of_sortedPromptNumbers, list_elem_of_fmap.
    naive_solver.
Qed.

(** X2: the navigator reads the catalogue through the set of its prompt
    numbers alone: two catalogues with the same prompt numbers, whatever
    their rows, letters, texts and order, give the same next position and
    the same updated record. *)
Theorem advance_catalogue_numbers cur cl diceRoll visited
    availablePrompts availablePrompts' :
  (∀ x, x ∈ prompt_promptNumber <$> availablePrompts
        ↔ x ∈ prompt_promptNumber <$> availablePrompts') →
  advance cur cl diceRoll visited availablePrompts
    = advance cur cl diceRoll visited availablePrompts'.
Proof.
  intros Hnums. unfold advance, nextPosition, sameDice.
  by rewrite (sortedPromptNumbers_ext availablePrompts availablePrompts').
Qed.

Lemma advance_catalogue_numbers_witness :
  advance 1 "c" (mkDiceRoll 4 4) [mkVisitedPrompt 1 ["b"; "c"]%string]
    catalogue
  = advance 1 "c" (mkDiceRoll 4 4) [mkVisitedPrompt 1 ["b"; "c"]%string]
      [mkPrompt 7 2 "b" "You hide."; mkPrompt 8 1 "c" "You flee.";
       mkPrompt 9 2 "c" "You rest."].
Proof.
  apply advance_catalogue_numbers. intros x. unfold catalogue. cbn.
  rewrite !elem_of_cons, !elem_of_nil. naive_solver.
Defined.

(** X3: the prompt number never leaves the positive numbers and equal
    dice never move back: after a non-zero movement the next number is at
    least 1, after equal dice it is at least the current number. *)
Theorem advance_number_bounds cur cl diceRoll visited availablePrompts :
  (movementOf diceRoll ≠ 0 →
     1 ≤ fst (fst (advance cur cl diceRoll visited availablePrompts)))
  ∧ (movementOf diceRoll = 0 →
     cur ≤ fst (fst (advance cur cl diceRoll visited availablePrompts)))
  ∧ (1 ≤ cur →
     1 ≤ fst (fst (advance cur cl diceRoll visited availablePrompts))).
Proof.
  assert (Hnz : movementOf diceRoll ≠ 0 →
    1 ≤ fst (fst (advance cur cl diceRoll visited availablePrompts))).
  { intros Hm. unfold advance, nextPosition. cbn [fst].
    destruct (Z.eqb_spec (movementOf diceRoll) 0) as [|_]; [done|].
    destruct (findVisited _ visited); cbn [fst]; lia. }
  assert (Hz : movementOf diceRoll = 0 →
    cur ≤ fst (fst (advance cur cl diceRoll visited availablePrompts))).
  { intros Hm. rewrite (nextPosition_same_dice _ _ _ _ _ Hm).
    destruct (decide (cl = "c"%string)) as [->|Hc].
    - destruct (decide (cur ∈ prompt_promptNumber <$> availablePrompts))
        as [Hin|Hnin].
      + destruct (sameDice_redirect cur visited availablePrompts Hin)
          as (n & l & -> & Hlt & _). cbn [fst]. lia.
      + rewrite (sameDice_unknown_number _ _ _ Hnin). cbn [fst]. lia.
    - unfold sameDice. destruct (String.eqb_spec cl "c"); [done|].
      cbn [fst]. lia. }
  split_and!; [done..|].
  intros Hcur. destruct (decide (movementOf diceRoll = 0)) as [Hm|Hm].
  - specialize (Hz Hm). lia.
  - by apply Hnz.
Qed.

Lemma advance_number_bounds_witness :
  movementOf (mkDiceRoll 1 6) ≠ 0
  ∧ 1 ≤ fst (fst (advance 2 "b" (mkDiceRoll 1 6) [] catalogue)).
Proof.
  assert (Hm : movementOf (mkDiceRoll 1 6) ≠ 0) by (by vm_compute).
  split; [exact Hm|].
  exact (proj1 (advance_number_bounds 2 "b" (mkDiceRoll 1 6) [] catalogue) Hm).
Defined.

(** X4: tracking a position twice is tracking it once. *)
Theorem trackVisited_idempotent visited n l :
  trackVisited (trackVisited visited n l) n l = trackVisited visited n l.
Proof.
  apply trackVisited_visited, isVisited_trackVisited. by right.
Qed.

(** X5: tracking never removes or reorders: every entry of the record
    stays at its index with its prompt number, its letters stay in place as
    a prefix of the new letters, and the record grows by at most one entry,
    added at the end. *)
Theorem trackVisited_entries_in_place visited n l :
  (∀ i e, visited !! i = Some e →
     ∃ e', trackVisited visited n l !! i = Some e'
           ∧ promptNumber e' = promptNumber e
           ∧ letters e `prefix_of` letters e')
  ∧ (length visited ≤ length (trackVisited visited n l) ≤ S (length visited))%nat.
Proof.
  induction visited as [|x visited [IHe IHl]].
  - rewrite trackVisited_nil. split; [done|]. cbn. lia.
  - rewrite trackVisited_cons.
    destruct (decide (promptNumber x = n)) as [Hn|Hn].
    + destruct (includes l (letters x)).
      * split; [|lia]. intros i e He. by exists e.
      * split; [|cbn; lia]. intros [|i] e He.
        -- injection He as <-. exists (pushLetter l x). cbn.
           split_and!; [done..|]. by apply prefix_app_r.
        -- by exists e.
    + split; [|cbn; lia]. intros [|i] e He.
      * injection He as <-. by exists x.
      * cbn. by apply IHe.
Qed.

Lemma trackVisited_entries_in_place_witness :
  [mkVisitedPrompt 1 ["b"%string]] !! 0%nat = Some (mkVisitedPrompt 1 ["b"%string])
  ∧ ∃ e', trackVisited [mkVisitedPrompt 1 ["b"%string]] 1 "c" !! 0%nat = Some e'
          ∧ promptNumber e' = 1
          ∧ ["b"%string] `prefix_of` letters e'.
Proof.
  split; [reflexivity|].
  exact (proj1 (trackVisited_entries_in_place
                  [mkVisitedPrompt 1 ["b"%string]] 1 "c")
           0%nat (mkVisitedPrompt 1 ["b"%string]) eq_refl).
Defined.

(** ** Further properties of the roll handler *)



(** X7: what a roll never touches.  The prompts are left as they are; the
    prompt history keeps every entry in place and gains at most one, at the
    end, which carries the response and the character of the request; no
    character row is added, removed, renumbered or handed to another
    user. *)
Theorem postPromptHistory_frame env req db :
  let db' := fst (postPromptHistory env req db) in
  db_prompts db' = db_prompts db
  ∧ (db_promptHistory db' = db_promptHistory db
     ∨ ∃ entry, db_promptHistory db' = db_promptHistory db ++ [entry]
                ∧ history_response entry = req_response req
                ∧ history_characterId entry = req_characterId req
                ∧ history_promptId entry = req_promptId req
                ∧ history_diceRoll entry = req_diceRoll req)
  ∧ character_id <$> db_characters db' = character_id <$> db_characters db
  ∧ character_userId <$> db_characters db'
      = character_userId <$> db_characters db.
Proof.
  unfold postPromptHistory.
  destruct (req_user req) as [userId|]; [|by auto].
  destruct (selectCharacter _ _ _) as [character|]; [|by auto].
  destruct (bool_decide _); [by auto|].
  destruct (advance _ _ _ _ _) as [[n l] v].
  destruct (selectPrompt _ _) as [prompt|]; [|by auto].
  destruct (inInt4 (orNumber _ _)); cbn [negb]; [|by auto].
  destruct (recordResponse _ _ _ _) as [memories' outcome].
  destruct (inInt4 n); cbn [negb fst db_prompts db_promptHistory db_characters].
  - split_and!; [done| | |].
    + right. eexists. split; [done|]. done.
    + unfold updateCharacter. rewrite <- list_fmap_compose.
      apply list_fmap_ext. intros i c _. cbn. by case_bool_decide.
    + unfold updateCharacter. rewrite <- list_fmap_compose.
      apply list_fmap_ext. intros i c _. cbn. by case_bool_decide.
  - split_and!; [done| |done..].
    right. eexists. split; [done|]. done.
Qed.

Lemma NoDup_fmap_eq {A B} (f : A → B) (l : list A) x y :
  NoDup (f <$> l) → x ∈ l → y ∈ l → f x = f y → x = y.
Proof.
  induction l as [|z l IH]; [by intros _ ?%elem_of_nil|].
  rewrite fmap_cons. intros [Hz Hnd]%NoDup_cons.
  intros [->|Hx]%elem_of_cons [->|Hy]%elem_of_cons Hf; [done| | |by apply IH].
  - exfalso. apply Hz. rewrite Hf. by apply list_elem_of_fmap_2.
  - exfalso. apply Hz. rewrite <- Hf. by apply list_elem_of_fmap_2.
Qed.

(** X8: a roll changes no character but the one it is made for.  Rows
    with another id stay as they are; when the ids of the characters are
    distinct, as the primary key has them, so do all rows of other users. *)
Theorem postPromptHistory_other_characters env req db i c :
  db_characters db !! i = Some c →
  (character_id c ≠ req_characterId req
   ∨ (NoDup (character_id <$> db_characters db)
      ∧ req_user req ≠ Some (character_userId c))) →
  db_characters (fst (postPromptHistory env req db)) !! i = Some c.
Proof.
  intros Hi Hother. unfold postPromptHistory.
  destruct (req_user req) as [userId|] eqn:Huser; [|done].
  destruct (selectCharacter _ _ _) as [character|] eqn:Hsel; [|done].
  destruct (bool_decide _); [done|].
  destruct (advance _ _ _ _ _) as [[n l] v].
  destruct (selectPrompt _ _) as [prompt|]; [|done].
  destruct (inInt4 (orNumber _ _)); cbn [negb]; [|done].
  destruct (recordResponse _ _ _ _) as [memories' outcome].
  destruct (inInt4 n); cbn [negb fst db_characters]; [|done].
  unfold updateCharacter.
  rewrite list_lookup_fmap, Hi. cbn.
  case_bool_decide as Hid; [|done]. exfalso.
  destruct Hother as [Hne|[Hnd Howner]]; [done|].
  unfold selectCharacter in Hsel.
  apply fmap_Some in Hsel as ([j x] & Hfind & ->).
  apply list_find_Some in Hfind as (Hj & [Hxid Hxuser] & _). cbn in *.
  assert (c = x) as ->.
  { apply (NoDup_fmap_eq character_id (db_characters db)); [done| | |congruence].
    - by eapply list_elem_of_lookup_2.
    - by eapply list_elem_of_lookup_2. }
  congruence.
Qed.

Lemma postPromptHistory_other_characters_witness :
  let other := mkCharacter 11 2 [] 3 "b" [mkVisitedPrompt 3 ["b"%string]] in
  let db := mkDb [characterAtCapacity; other] catalogue [] in
  db_characters db !! 1%nat = Some other
  ∧ character_id other ≠ req_characterId rollEqualDice
  ∧ db_characters (fst (postPromptHistory (mkEnv "now" "m6") rollEqualDice db))
      !! 1%nat = Some other.
Proof.
  cbn zeta. split; [reflexivity|].
  assert (Hne : character_id
                  (mkCharacter 11 2 [] 3 "b" [mkVisitedPrompt 3 ["b"%string]])
                ≠ req_characterId rollEqualDice) by (by vm_compute).
  split; [exact Hne|].
  apply postPromptHistory_other_characters; [reflexivity|]. left. exact Hne.
Defined.

(** ** The prompt of a position *)

Lemma findPrompt_Some n l ps p :
  findPrompt n l ps = Some p →
  p ∈ ps ∧ prompt_promptNumber p = n ∧ prompt_promptLetter p = l.
Proof.
  unfold findPrompt. intros ([i x] & Hfind & ->)%fmap_Some.
  apply list_find_Some in Hfind as (Hi & [Hn Hl] & _).
  split_and!; [by eapply list_elem_of_lookup_2|done..].
Qed.

Lemma findPrompt_None n l ps :
  findPrompt n l ps = None →
  ∀ q, q ∈ ps → ¬ (prompt_promptNumber q = n ∧ prompt_promptLetter q = l).
Proof.
  unfold findPrompt. intros Hfind%fmap_None.
  apply list_find_None in Hfind. by rewrite Forall_forall in Hfind.
Qed.

Lemma findPromptNumber_Some n ps p :
  findPromptNumber n ps = Some p → p ∈ ps ∧ prompt_promptNumber p = n.
Proof.
  unfold findPromptNumber. intros ([i x] & Hfind & ->)%fmap_Some.
  apply list_find_Some in Hfind as (Hi & Hn & _).
  split; [by eapply list_elem_of_lookup_2|done].
Qed.

Lemma findPromptNumber_None n ps :
  findPromptNumber n ps = None → ∀ q, q ∈ ps → prompt_promptNumber q ≠ n.
Proof.
  unfold findPromptNumber. intros Hfind%fmap_None.
  apply list_find_None in Hfind. by rewrite Forall_forall in Hfind.
Qed.

Lemma maxOf_is_Some (numbers : list Z) : numbers ≠ [] → is_Some (maxOf numbers).
Proof.
  destruct numbers as [|x rest]; [done|]. intros _. cbn.
  destruct (maxOf rest); eauto.
Qed.

(** X9: the prompt sent back with a roll, for a catalogue that is not
    empty.  It always exists, carries the next prompt number and the id of
    a stored prompt.  When the catalogue has the next number it is a stored
    prompt of that number, and the one of the next letter when that is
    stored; when the catalogue does not have the number it is a placeholder
    that carries the next letter. *)
Theorem nextPromptInfo_shown availablePrompts nextPrompt nextLetter :
  availablePrompts ≠ [] →
  ∃ info,
    nextPromptInfo availablePrompts nextPrompt nextLetter = Some info
    ∧ prompt_promptNumber info = nextPrompt
    ∧ (∃ q, q ∈ availablePrompts ∧ prompt_id q = prompt_id info)
    ∧ ((∃ q, q ∈ availablePrompts ∧ prompt_promptNumber q = nextPrompt
             ∧ prompt_promptLetter q = nextLetter) →
       info ∈ availablePrompts ∧ prompt_promptLetter info = nextLetter)
    ∧ ((∃ q, q ∈ availablePrompts ∧ prompt_promptNumber q = nextPrompt) →
       info ∈ availablePrompts)
    ∧ ((∀ q, q ∈ availablePrompts → prompt_promptNumber q ≠ nextPrompt) →
       prompt_promptLetter info = nextLetter ∧ info ∉ availablePrompts).
Proof.
  intros Hne. unfold nextPromptInfo.
  destruct (findPrompt nextPrompt nextLetter availablePrompts) as [p|] eqn:Hp.
  { apply findPrompt_Some in Hp as (Hin & Hn & Hl).
    exists p. split_and!; [done..|by exists p|done|done|].
    intros Hnone. by destruct (Hnone p Hin). }
  pose proof (findPrompt_None _ _ _ Hp) as Hnop.
  destruct (findPromptNumber nextPrompt availablePrompts) as [p|] eqn:Hq.
  { apply findPromptNumber_Some in Hq as (Hin & Hn).
    exists p. split_and!; [done..|by exists p| |done|].
    - intros (q & Hqin & Hqn & Hql). by destruct (Hnop q Hqin).
    - intros Hnone. by destruct (Hnone p Hin). }
  pose proof (findPromptNumber_None _ _ Hq) as Hnon.
  destruct (maxOf_is_Some (prompt_promptNumber <$> availablePrompts))
    as [m ->]; [by destruct availablePrompts|].
  assert (Hmiss : ∀ info, prompt_promptNumber info = nextPrompt →
                          info ∉ availablePrompts).
  { intros info Hn Hin. by apply (Hnon info Hin). }
  destruct (findPromptNumber (Z.min m 15) availablePrompts) as [f|] eqn:Hf.
  { apply findPromptNumber_Some in Hf as (Hin & _).
    eexists. split; [done|]. cbn.
    split_and!; [done|by exists f| | |].
    - intros (q & Hqin & Hqn & _). by destruct (Hnon q Hqin).
    - intros (q & Hqin & Hqn). by destruct (Hnon q Hqin).
    - intros _. split; [done|]. by apply Hmiss. }
  destruct (last availablePrompts) as [h|] eqn:Hlast;
    [|by apply last_None in Hlast].
  apply last_Some_elem_of in Hlast.
  eexists. split; [done|]. cbn.
  split_and!; [done|by exists h| | |].
  - intros (q & Hqin & Hqn & _). by destruct (Hnon q Hqin).
  - intros (q & Hqin & Hqn). by destruct (Hnon q Hqin).
  - intros _. split; [done|]. by apply Hmiss.
Qed.

Lemma nextPromptInfo_shown_witness :
  catalogue ≠ []
  ∧ ∃ info, nextPromptInfo catalogue 3 "a" = Some info
            ∧ prompt_promptNumber info = 3
            ∧ prompt_promptLetter info = "a"%string.
Proof.
  assert (Hne : catalogue ≠ []) by done.
  split; [exact Hne|].
  destruct (nextPromptInfo_shown catalogue 3 "a" Hne)
    as (info & Heq & Hn & _ & _ & _ & Hplace).
  exists info. split_and!; [exact Heq|exact Hn|].
  apply Hplace. intros q Hq. unfold catalogue in Hq.
  rewrite !elem_of_cons, elem_of_nil in Hq.
  destruct Hq as [->|[->|[]]]; done.
Defined.

Lemma elem_of_selectAvailablePrompts prompts p :
  p ∈ selectAvailablePrompts prompts ↔ p ∈ prompts.
Proof. by rewrite selectAvailablePrompts_Permutation. Qed.

Lemma selectAvailablePrompts_nil prompts :
  selectAvailablePrompts prompts = [] ↔ prompts = [].
Proof.
  split; [|by intros ->].
  intros Hnil. pose proof (selectAvailablePrompts_Permutation prompts) as H.
  rewrite Hnil in H. symmetry in H. by apply Permutation_nil_r in H.
Qed.

(** X10: a signed-in client that asks for a prompt is always shown one
    when the catalogue is not empty, whether or not the prompt is stored.
    What it is shown carries the number and the letter it asked for (the
    letter a when it gave none) and the id of a stored prompt.  It is marked
    as a placeholder exactly unless the very prompt is stored, in which case
    the stored text is shown. *)
Theorem getPrompt_always_shown userId promptNumber letter prompts :
  prompts ≠ [] →
  ∃ view,
    getPrompt (Some userId) promptNumber letter prompts = PromptShown view
    ∧ view_promptNumber view = promptNumber
    ∧ view_promptLetter view = orString letter "a"
    ∧ (∃ q, q ∈ prompts ∧ prompt_id q = view_id view)
    ∧ (view_isPlaceholder view = false
       ↔ ∃ q, q ∈ prompts ∧ promptNumber = Some (prompt_promptNumber q)
              ∧ prompt_promptLetter q = orString letter "a")
    ∧ (view_isPlaceholder view = false →
       ∃ q, q ∈ prompts ∧ prompt_id q = view_id view
            ∧ Some (prompt_promptNumber q) = promptNumber
            ∧ prompt_promptLetter q = orString letter "a"
            ∧ prompt_content q = view_content view
            ∧ view_entry view = None).
Proof.
  intros Hne. unfold getPrompt.
  assert (Hne' : selectAvailablePrompts prompts ≠ [])
    by (by rewrite selectAvailablePrompts_nil).
  rewrite bool_decide_eq_false_2 by done.
  set (allPrompts := selectAvailablePrompts prompts) in *.
  set (promptLetter := orString letter "a").
  destruct (list_find _ allPrompts) as [[i p]|] eqn:Hexact; cbn [fmap option_fmap option_map snd].
  { apply list_find_Some in Hexact as (Hi & [Hn Hl] & _).
    apply list_elem_of_lookup_2 in Hi. unfold allPrompts in Hi.
    rewrite elem_of_selectAvailablePrompts in Hi.
    eexists. split; [done|]. cbn.
    split_and!; [done|done| | |].
    - by exists p.
    - split; [|done]. intros _. by exists p.
    - intros _. by exists p. }
  apply list_find_None in Hexact. rewrite Forall_forall in Hexact.
  assert (Hnone : ¬ ∃ q, q ∈ prompts
                         ∧ promptNumber = Some (prompt_promptNumber q)
                         ∧ prompt_promptLetter q = promptLetter).
  { intros (q & Hq & Hqn & Hql).
    apply (Hexact q); [by apply elem_of_selectAvailablePrompts|done]. }
  destruct (list_find _ allPrompts) as [[i p]|] eqn:Hany; cbn [fmap option_fmap option_map snd].
  { apply list_find_Some in Hany as (Hi & Hn & _).
    apply list_elem_of_lookup_2 in Hi. unfold allPrompts in Hi.
    rewrite elem_of_selectAvailablePrompts in Hi.
    eexists. split; [done|]. cbn.
    split_and!; [done|done|by exists p| |done].
    split; [done|]. intros Hex. by destruct Hnone. }
  destruct (maxOf_is_Some (prompt_promptNumber <$> allPrompts)) as [m ->].
  { by destruct allPrompts. }
  destruct (head allPrompts) as [firstPrompt|] eqn:Hhead;
    [|by destruct allPrompts].
  assert (Hfallback : default firstPrompt
                        (findPromptNumber (Z.min m 15) allPrompts) ∈ prompts).
  { apply elem_of_selectAvailablePrompts.
    destruct (findPromptNumber _ allPrompts) as [f|] eqn:Hf; cbn.
    - by apply findPromptNumber_Some in Hf as [? _].
    - by apply head_Some_elem_of. }
  eexists. split; [done|]. cbn.
  split_and!; [done|done|by eexists| |done].
  split; [done|]. intros Hex. by destruct Hnone.
Qed.

Lemma getPrompt_always_shown_witness :
  catalogue ≠ []
  ∧ ∃ view, getPrompt (Some 1) (Some 2) None catalogue = PromptShown view
            ∧ view_promptNumber view = Some 2
            ∧ view_promptLetter view = "a"%string.
Proof.
  assert (Hne : catalogue ≠ []) by done.
  split; [exact Hne|].
  destruct (getPrompt_always_shown 1 (Some 2) None catalogue Hne)
    as (view & Heq & Hn & Hl & _).
  exists view. split_and!; [exact Heq|exact Hn|exact Hl].
Defined.





(** ** Deleting a character *)

(** X12: a user who deletes one of their characters is answered with 200;
    afterwards the character cannot be selected any more and the history
    holds no entry of its id, while the prompts, the characters of other
    ids or owners and the history entries of other characters are all
    kept, in their order. *)
Theorem deleteCharacter_deleted userId characterId db character :
  selectCharacter characterId userId (db_characters db) = Some character →
  let db' := fst (deleteCharacter (Some userId) (Some characterId) db) in
  snd (deleteCharacter (Some userId) (Some characterId) db)
    = CharacterDeleted characterId
  ∧ selectCharacter characterId userId (db_characters db') = None
  ∧ (∀ h, h ∈ db_promptHistory db' ↔
          h ∈ db_promptHistory db ∧ history_characterId h ≠ characterId)
  ∧ (∀ c, c ∈ db_characters db' ↔
          c ∈ db_characters db
          ∧ ¬ (character_id c = characterId ∧ character_userId c = userId))
  ∧ db_promptHistory db' `sublist_of` db_promptHistory db
  ∧ db_characters db' `sublist_of` db_characters db
  ∧ db_prompts db' = db_prompts db.
Proof.
  intros Hsel. unfold deleteCharacter. rewrite Hsel.
  cbn [fst snd db_characters db_promptHistory db_prompts].
  split_and!; [done| | | | | |done].
  - unfold selectCharacter. apply fmap_None, list_find_None, Forall_forall.
    intros c Hc%list_elem_of_filter. by destruct Hc.
  - intros h. by rewrite list_elem_of_filter, (comm and).
  - intros c. by rewrite list_elem_of_filter, (comm and).
  - apply sublist_filter.
  - apply sublist_filter.
Qed.

Lemma deleteCharacter_deleted_witness :
  let db := mkDb [characterAtCapacity] catalogue
              [mkPromptHistory 10 100 1 "a" (mkDiceRoll 5 5) "I fed" "t0"] in
  selectCharacter 10 1 (db_characters db) = Some characterAtCapacity
  ∧ deleteCharacter (Some 1) (Some 10) db
    = (mkDb [] catalogue [], CharacterDeleted 10).
Proof.
  cbn zeta. split; [reflexivity|].
  pose proof (deleteCharacter_deleted 1 10
                (mkDb [characterAtCapacity] catalogue
                   [mkPromptHistory 10 100 1 "a" (mkDiceRoll 5 5) "I fed" "t0"])
                characterAtCapacity eq_refl) as [Hresp _].
  apply injective_projections; [by vm_compute|exact Hresp].
Defined.

(** X13: only the owner deletes.  When no character of the given id
    belongs to the user, and also without a user or without a number for
    an id, nothing is deleted: the database stays as it was and the answer
    is not 200. *)
Theorem deleteCharacter_only_owner user characterId db :
  (∀ c, c ∈ db_characters db →
        ¬ (Some (character_id c) = characterId
           ∧ Some (character_userId c) = user)) →
  fst (deleteCharacter user characterId db) = db
  ∧ ∀ deleted, snd (deleteCharacter user characterId db)
               ≠ CharacterDeleted deleted.
Proof.
  intros Hnone. unfold deleteCharacter.
  destruct user as [userId|]; [|done].
  destruct characterId as [characterId|]; [|done].
  destruct (selectCharacter _ _ _) as [c|] eqn:Hsel; [|done].
  unfold selectCharacter in Hsel.
  apply fmap_Some in Hsel as ([i x] & Hfind & ->).
  apply list_find_Some in Hfind as (Hi & [Hid Huser] & _).
  apply list_elem_of_lookup_2 in Hi. destruct (Hnone _ Hi). cbn.
  split; congruence.
Qed.

Lemma deleteCharacter_only_owner_witness :
  let db := mkDb [characterAtCapacity] catalogue
              [mkPromptHistory 10 100 1 "a" (mkDiceRoll 5 5) "I fed" "t0"] in
  deleteCharacter (Some 2) (Some 10) db = (db, DeleteCharacterNotFound).
Proof.
  cbn zeta.
  assert (Hnone : ∀ c, c ∈ [characterAtCapacity] →
            ¬ (Some (character_id c) = Some 10
               ∧ Some (character_userId c) = Some 2)).
  { intros c ->%list_elem_of_singleton [_ Hu]. discriminate Hu. }
  pose proof (deleteCharacter_only_owner (Some 2) (Some 10)
                (mkDb [characterAtCapacity] catalogue
                   [mkPromptHistory 10 100 1 "a" (mkDiceRoll 5 5) "I fed" "t0"])
                Hnone) as [Hdb _].
  apply injective_projections; [exact Hdb|reflexivity].
Defined.

(** X14: deleting a character keeps the references of the history
    intact: when every history entry named a stored character and a stored
    prompt before, every remaining entry does so afterwards. *)
Theorem deleteCharacter_referentialIntegrity user characterId db :
  referentialIntegrity db →
  referentialIntegrity (fst (deleteCharacter user characterId db)).
Proof.
  intros Hint. unfold deleteCharacter.
  destruct user as [userId|]; [|done].
  destruct characterId as [characterId|]; [|done].
  destruct (selectCharacter _ _ _) as [c|]; [|done].
  intros h. cbn [fst db_characters db_promptHistory db_prompts].
  intros [Hne Hh]%list_elem_of_filter.
  destruct (Hint h Hh) as [(c' & Hc' & Hid) Hprompt]. split; [|done].
  exists c'. split; [|done]. apply list_elem_of_filter. split; [|done].
  intros [Hcid _]. congruence.
Qed.

Lemma deleteCharacter_referentialIntegrity_witness :
  let other := mkCharacter 11 2 [] 3 "b" [] in
  let db := mkDb [characterAtCapacity; other] catalogue
              [mkPromptHistory 10 100 1 "a" (mkDiceRoll 5 5) "I fed" "t0";
               mkPromptHistory 11 101 2 "a" (mkDiceRoll 2 1) "I hid" "t1"] in
  referentialIntegrity db
  ∧ referentialIntegrity (fst (deleteCharacter (Some 1) (Some 10) db)).
Proof.
  cbn zeta.
  assert (Hint : referentialIntegrity
    (mkDb [characterAtCapacity; mkCharacter 11 2 [] 3 "b" []] catalogue
       [mkPromptHistory 10 100 1 "a" (mkDiceRoll 5 5) "I fed" "t0";
        mkPromptHistory 11 101 2 "a" (mkDiceRoll 2 1) "I hid" "t1"])).
  { intros h Hh. cbn in Hh. rewrite !elem_of_cons, elem_of_nil in Hh.
    destruct Hh as [->|[->|[]]]; cbn; unfold catalogue.
    - split.
      + exists characterAtCapacity. split; [|reflexivity].
        rewrite !elem_of_cons. auto.
      + exists (mkPrompt 100 1 "a" "You are a vampire."). split; [|reflexivity].
        rewrite !elem_of_cons. auto.
    - split.
      + exists (mkCharacter 11 2 [] 3 "b" []). split; [|reflexivity].
        rewrite !elem_of_cons. auto.
      + exists (mkPrompt 101 2 "a" "You feed."). split; [|reflexivity].
        rewrite !elem_of_cons. auto. }
  split; [exact Hint|]. by apply deleteCharacter_referentialIntegrity.
Defined.

(** X15: a roll keeps the references of the history intact: the entry it
    adds names the character and the prompt of the request, both stored. *)
Theorem postPromptHistory_referentialIntegrity env req db :
  referentialIntegrity db →
  referentialIntegrity (fst (postPromptHistory env req db)).
Proof.
  intros Hint. unfold postPromptHistory.
  destruct (req_user req) as [userId|]; [|done].
  destruct (selectCharacter _ _ _) as [character|] eqn:Hsel; [|done].
  destruct (bool_decide _); [done|].
  destruct (advance _ _ _ _ _) as [[n l] v].
  destruct (selectPrompt _ _) as [prompt|] eqn:Hprompt; [|done].
  destruct (inInt4 (orNumber _ _)); cbn [negb]; [|done].
  destruct (recordResponse _ _ _ _) as [memories' outcome].
  assert (Hself : ∃ c, c ∈ db_characters db
                       ∧ character_id c = req_characterId req).
  { unfold selectCharacter in Hsel.
    apply fmap_Some in Hsel as ([i x] & Hfind & ->).
    apply list_find_Some in Hfind as (Hi & [Hid _] & _).
    exists x. split; [by eapply list_elem_of_lookup_2|done]. }
  assert (Hnamed : ∃ q, q ∈ db_prompts db ∧ prompt_id q = req_promptId req).
  { unfold selectPrompt in Hprompt.
    apply fmap_Some in Hprompt as ([i x] & Hfind & ->).
    apply list_find_Some in Hfind as (Hi & Hid & _).
    exists x. split; [by eapply list_elem_of_lookup_2|done]. }
  destruct (inInt4 n); cbn [negb fst]; intros h;
    cbn [db_characters db_promptHistory db_prompts].
  - assert (Hids : ∀ cid, (∃ c, c ∈ db_characters db ∧ character_id c = cid) →
              ∃ c, c ∈ updateCharacter (req_characterId req) n l v
                         match outcome with
                         | CapacityExceeded => None
                         | _ => Some memories'
                         end (db_characters db)
                   ∧ character_id c = cid).
    { intros cid (c & Hc & Hid). unfold updateCharacter.
      eexists. split; [by apply list_elem_of_fmap_2|].
      cbn. by case_bool_decide. }
    intros [Hh| ->%list_elem_of_singleton]%elem_of_app.
    + destruct (Hint h Hh) as [Hc Hp]. split; [by apply Hids|done].
    + cbn. split; [by apply Hids|done].
  - intros [Hh| ->%list_elem_of_singleton]%elem_of_app.
    + by apply Hint.
    + cbn. by split.
Qed.

Lemma postPromptHistory_referentialIntegrity_witness :
  let db := mkDb [characterAtCapacity] catalogue [] in
  referentialIntegrity db
  ∧ referentialIntegrity
      (fst (postPromptHistory (mkEnv "now" "m6") rollEqualDice db)).
Proof.
  cbn zeta.
  assert (Hint : referentialIntegrity (mkDb [characterAtCapacity] catalogue [])).
  { intros h Hh. cbn in Hh. by apply elem_of_nil in Hh. }
  split; [exact Hint|]. by apply postPromptHistory_referentialIntegrity.
Defined.

(** ** Further properties of the memory allocator *)

(** X16: a memory that is not open, be it in a diary, struck out or
    full, is never touched by the allocator: it stays at its index as it
    is. *)
Theorem recordResponse_frozen newExperience newId promptTitle memories i m :
  memories !! i = Some m →
  isOpen m = false →
  fst (recordResponse newExperience newId promptTitle memories) !! i = Some m.
Proof.
  intros Hi Hclosed. unfold recordResponse.
  destruct (list_find _ memories) as [[j x]|] eqn:Hfind; cbn [fst].
  - apply list_find_Some in Hfind as (Hj & Hopen & _).
    rewrite list_lookup_alter_ne; [done|]. intros ->. congruence.
  - destruct (_ <? _)%nat; cbn [fst]; [|done].
    rewrite lookup_app_l; [done|]. by eapply lookup_lt_Some.
Qed.

Lemma recordResponse_frozen_witness :
  fullPool !! 2%nat = Some (fullMemory "m3")
  ∧ isOpen (fullMemory "m3") = false
  ∧ fst (recordResponse (mkExperience "four" "t4") "m6" "Memory"
           (mkMemory "m0" "Open" [] false false :: fullPool)) !! 3%nat
    = Some (fullMemory "m3").
Proof.
  split; [reflexivity|]. split; [reflexivity|].
  apply recordResponse_frozen; reflexivity.
Defined.

Lemma allExperiences_app memories1 memories2 :
  allExperiences (memories1 ++ memories2)
    = allExperiences memories1 ++ allExperiences memories2.
Proof. unfold allExperiences. by rewrite fmap_app, concat_app. Qed.

Lemma allExperiences_cons m memories :
  allExperiences (m :: memories) = experiences m ++ allExperiences memories.
Proof. reflexivity. Qed.

(** X17: a response that is placed is stored exactly once and nothing
    else is lost or added: unless the outcome is [CapacityExceeded], the
    experiences of the new pool are those of the old pool and the new
    one. *)
Theorem recordResponse_stores_once newExperience newId promptTitle memories :
  snd (recordResponse newExperience newId promptTitle memories)
    ≠ CapacityExceeded →
  allExperiences (fst (recordResponse newExperience newId promptTitle memories))
    ≡ₚ newExperience :: allExperiences memories.
Proof.
  unfold recordResponse.
  destruct (list_find _ memories) as [[j x]|] eqn:Hfind; cbn [fst snd].
  - intros _. apply list_find_Some in Hfind as (Hj & _ & _).
    assert (Hlen : j = length (take j memories)).
    { rewrite length_take. apply lookup_lt_Some in Hj. lia. }
    pose proof (take_drop_middle memories j x Hj) as Hmem.
    revert Hlen Hmem. generalize (take j memories) (drop (S j) memories).
    intros pre post -> <-.
    rewrite alter_middle, !allExperiences_app, !allExperiences_cons.
    cbn [experiences pushExperience].
    rewrite <- (assoc (++) (experiences x)). cbn [app].
    rewrite !(assoc (++)). symmetry. apply Permutation_middle.
  - destruct (_ <? _)%nat; cbn [fst snd]; [|done]. intros _.
    rewrite allExperiences_app. cbn. symmetry.
    apply Permutation_cons_append.
Qed.

Lemma recordResponse_stores_once_witness :
  let pool := [fullMemory "m1"; mkMemory "m2" "Open" [] false false] in
  snd (recordResponse (mkExperience "four" "t4") "m3" "Memory" pool)
    ≠ CapacityExceeded
  ∧ allExperiences
      (fst (recordResponse (mkExperience "four" "t4") "m3" "Memory" pool))
    ≡ₚ mkExperience "four" "t4" :: allExperiences pool.
Proof.
  cbn zeta.
  assert (Hok : snd (recordResponse (mkExperience "four" "t4") "m3" "Memory"
                       [fullMemory "m1"; mkMemory "m2" "Open" [] false false])
                ≠ CapacityExceeded) by (by vm_compute).
  split; [exact Hok|]. by apply recordResponse_stores_once.
Defined.

(** *** Responses recorded one after the other *)

Lemma filledInOrder_nil : filledInOrder [].
Proof. split; [constructor|]. intros i m Hi. done. Qed.

Lemma filledInOrder_init init m :
  filledInOrder (init ++ [m]) →
  Forall (λ x, inDiary x = false ∧ strikedOut x = false
               ∧ length (experiences x) = 3%nat) init
  ∧ inDiary m = false ∧ strikedOut m = false
  ∧ (1 ≤ length (experiences m) ≤ 3)%nat.
Proof.
  intros [Hall Hfull]. apply Forall_app in Hall as [Hinit Hm].
  apply Forall_singleton in Hm as (? & ? & ?). split; [|done].
  apply Forall_lookup. intros i x Hi.
  rewrite Forall_lookup in Hinit. destruct (Hinit i x Hi) as (? & ? & _).
  split_and!; [done..|]. apply (Hfull i).
  - by rewrite lookup_app_l by (by eapply lookup_lt_Some).
  - rewrite length_app. cbn. apply lookup_lt_Some in Hi. lia.
Qed.

Lemma full_memories_count (memories : list Memory) :
  Forall (λ x, inDiary x = false ∧ strikedOut x = false
               ∧ length (experiences x) = 3%nat) memories →
  length (allExperiences memories) = (3 * length memories)%nat
  ∧ activeMemoriesCount memories = length memories
  ∧ ∀ x, x ∈ memories → isOpen x = false.
Proof.
  induction 1 as [|m memories (Hd & Hs & Hl) _ (IHn & IHa & IHo)].
  - split_and!; [done..|]. by intros x ?%elem_of_nil.
  - rewrite allExperiences_cons, length_app, activeMemoriesCount_cons.
    rewrite Hs, Hl, IHn, IHa. cbn [length]. split_and!; [lia..|].
    intros x [->|Hx]%elem_of_cons; [|by apply IHo].
    unfold isOpen. rewrite Hl. by rewrite andb_false_r.
Qed.

Lemma filledInOrder_count memories :
  filledInOrder memories →
  (length (allExperiences memories) ≤ 3 * length memories
   ∧ 3 * length memories < length (allExperiences memories) + 3)%nat.
Proof.
  destruct memories as [|m0 rest] using rev_ind; [cbn; lia|].
  intros (Hinit & _ & _ & Hm)%filledInOrder_init.
  destruct (full_memories_count _ Hinit) as (Hn & _ & _).
  rewrite allExperiences_app, !length_app, Hn. cbn.
  rewrite length_app. cbn. lia.
Qed.

Lemma recordResponse_append_at newExperience newId promptTitle pre m post :
  (∀ x, x ∈ pre → isOpen x = false) →
  isOpen m = true →
  recordResponse newExperience newId promptTitle (pre ++ m :: post)
    = (pre ++ pushExperience newExperience m :: post, Appended).
Proof.
  intros Hpre Hm. unfold recordResponse.
  rewrite (list_find_isOpen _ _ _ Hpre Hm). by rewrite alter_middle.
Qed.

Lemma recordResponse_create newExperience newId promptTitle memories :
  (∀ x, x ∈ memories → isOpen x = false) →
  (activeMemoriesCount memories < 5)%nat →
  recordResponse newExperience newId promptTitle memories
    = (memories
         ++ [ {| id := newId; title := promptTitle;
                 experiences := [newExperience];
                 inDiary := false; strikedOut := false |} ],
       Created).
Proof.
  intros Hnone%list_find_isOpen_None Hlt. unfold recordResponse.
  rewrite Hnone.
  destruct (Nat.ltb_spec (activeMemoriesCount memories) 5); [done|lia].
Qed.

Lemma recordResponse_exceeded newExperience newId promptTitle memories :
  (∀ x, x ∈ memories → isOpen x = false) →
  (5 ≤ activeMemoriesCount memories)%nat →
  recordResponse newExperience newId promptTitle memories
    = (memories, CapacityExceeded).
Proof.
  intros Hnone%list_find_isOpen_None Hge. unfold recordResponse.
  rewrite Hnone.
  destruct (Nat.ltb_spec (activeMemoriesCount memories) 5); [lia|done].
Qed.

(** One response into a pool filled in order that holds fewer than 15
    experiences: it is placed, at the end. *)
Lemma recordResponse_filledInOrder newExperience newId promptTitle memories :
  filledInOrder memories →
  (length (allExperiences memories) < 15)%nat →
  snd (recordResponse newExperience newId promptTitle memories)
    ≠ CapacityExceeded
  ∧ filledInOrder
      (fst (recordResponse newExperience newId promptTitle memories))
  ∧ allExperiences
      (fst (recordResponse newExperience newId promptTitle memories))
    = allExperiences memories ++ [newExperience].
Proof.
  destruct memories as [|m init _] using rev_ind.
  { intros _ _. cbn. split_and!; [done| |done].
    split; [apply Forall_singleton; cbn; split_and!; (done || lia)|].
    intros [|i] x Hi Hlt; cbn in Hlt; lia. }
  intros Hfill Hlt.
  pose proof (filledInOrder_init _ _ Hfill) as (Hinit & Hd & Hs & Hm).
  destruct (full_memories_count _ Hinit) as (Hn & Ha & Ho).
  destruct (decide (length (experiences m) = 3%nat)) as [Hfull|Hroom].
  - assert (Hall : Forall (λ x, inDiary x = false ∧ strikedOut x = false
                                ∧ length (experiences x) = 3%nat)
                          (init ++ [m])).
    { apply Forall_app. split; [done|]. by apply Forall_singleton. }
    destruct (full_memories_count _ Hall) as (Hn' & Ha' & Ho').
    rewrite recordResponse_create; [|done|lia]. cbn [fst snd].
    split_and!; [done| |].
    + split.
      * apply Forall_app. split; [by destruct Hfill|].
        apply Forall_singleton. cbn. split_and!; (done || lia).
      * intros i x Hi Hi'. rewrite length_app in Hi'. cbn in Hi'.
        rewrite lookup_app_l in Hi by lia.
        rewrite Forall_lookup in Hall. by destruct (Hall i x Hi) as (_ & _ & ?).
    + by rewrite allExperiences_app.
  - assert (Hopen : isOpen m = true).
    { unfold isOpen. rewrite Hd, Hs. cbn [negb andb].
      apply Nat.ltb_lt. lia. }
    rewrite recordResponse_append_at; [|done..]. cbn [fst snd].
    split_and!; [done| |].
    + split.
      * apply Forall_app. split.
        -- eapply Forall_impl; [exact Hinit|]. cbn. intros x (? & ? & ->).
           split_and!; (done || lia).
        -- apply Forall_singleton. cbn. rewrite length_app. cbn.
           split_and!; (done || lia).
      * intros i x Hi Hi'. rewrite length_app in Hi'. cbn in Hi'.
        rewrite lookup_app_l in Hi by lia.
        rewrite Forall_lookup in Hinit.
        by destruct (Hinit i x Hi) as (_ & _ & ?).
    + rewrite !allExperiences_app, !allExperiences_cons. cbn.
      by rewrite !app_nil_r, (assoc (++)).
Qed.

Lemma recordAll_snoc responses response memories :
  recordAll (responses ++ [response]) memories =
    (fst (recordResponse {| text := response; createdAt := "now" |}
            ("m" +:+ pretty (length (fst (recordAll responses memories))))
            "Memory" (fst (recordAll responses memories))),
     snd (recordAll responses memories)
     ++ [snd (recordResponse {| text := response; createdAt := "now" |}
                ("m" +:+ pretty (length (fst (recordAll responses memories))))
                "Memory" (fst (recordAll responses memories)))]).
Proof. unfold recordAll. by rewrite foldl_snoc. Qed.

Lemma recordAll_filledInOrder responses :
  (length responses ≤ 15)%nat →
  filledInOrder (fst (recordAll responses []))
  ∧ text <$> allExperiences (fst (recordAll responses [])) = responses
  ∧ length (snd (recordAll responses [])) = length responses
  ∧ CapacityExceeded ∉ snd (recordAll responses []).
Proof.
  induction responses as [|response responses IH] using rev_ind.
  { intros _. cbn. split_and!; [apply filledInOrder_nil|done..|].
    apply not_elem_of_nil. }
  rewrite length_app. cbn [length]. intros Hlen.
  destruct IH as (Hfill & Htexts & Houts & Hnone); [lia|].
  rewrite recordAll_snoc. cbn [fst snd].
  set (pool := fst (recordAll responses [])) in *.
  assert (Hroom : (length (allExperiences pool) < 15)%nat).
  { rewrite <- (length_fmap text), Htexts. lia. }
  destruct (recordResponse_filledInOrder
              {| text := response; createdAt := "now" |}
              ("m" +:+ pretty (length pool)) "Memory" pool Hfill Hroom)
    as (Hok & Hfill' & Hall).
  split_and!.
  - done.
  - by rewrite Hall, fmap_app, Htexts.
  - rewrite length_app, Houts. cbn. lia.
  - rewrite elem_of_app, list_elem_of_singleton. naive_solver.
Qed.

(** X18: up to 15 responses recorded one after the other into an empty
    pool are all placed, in order, three to a memory: the texts of the pool,
    memory after memory, are the responses; no outcome is
    [CapacityExceeded]; the pool keeps its bounds and has as many memories
    as the responses need at three each. *)
Theorem recordAll_fills_in_order responses :
  (length responses ≤ 15)%nat →
  text <$> allExperiences (fst (recordAll responses [])) = responses
  ∧ length (snd (recordAll responses [])) = length responses
  ∧ CapacityExceeded ∉ snd (recordAll responses [])
  ∧ poolInvariant (fst (recordAll responses []))
  ∧ (length responses ≤ 3 * length (fst (recordAll responses []))
     ∧ 3 * length (fst (recordAll responses [])) < length responses + 3)%nat.
Proof.
  intros Hlen.
  destruct (recordAll_filledInOrder responses Hlen)
    as (Hfill & Htexts & Houts & Hnone).
  pose proof (filledInOrder_count _ Hfill) as Hcount.
  rewrite <- (length_fmap text), Htexts in Hcount.
  split_and!; [done..| |lia|lia].
  split.
  - destruct Hfill as [Hall _]. eapply Forall_impl; [exact Hall|].
    cbn. intros m (_ & _ & ?). lia.
  - unfold activeMemoriesCount.
    pose proof (length_filter (λ m, strikedOut m = false)
                  (fst (recordAll responses []))). lia.
Qed.

Lemma recordAll_fills_in_order_witness :
  (length ["r1"; "r2"; "r3"; "r4"]%string ≤ 15)%nat
  ∧ text <$> allExperiences (fst (recordAll ["r1"; "r2"; "r3"; "r4"]%string []))
    = ["r1"; "r2"; "r3"; "r4"]%string.
Proof.
  assert (Hlen : (length ["r1"; "r2"; "r3"; "r4"]%string ≤ 15)%nat)
    by (cbn; lia).
  split; [exact Hlen|].
  exact (proj1 (recordAll_fills_in_order ["r1"; "r2"; "r3"; "r4"]%string Hlen)).
Defined.

Lemma filledInOrder_full memories :
  filledInOrder memories →
  length (allExperiences memories) = 15%nat →
  (∀ x, x ∈ memories → isOpen x = false)
  ∧ activeMemoriesCount memories = 5%nat.
Proof.
  destruct memories as [|m init _] using rev_ind; [done|].
  intros Hfill Htotal.
  pose proof (filledInOrder_init _ _ Hfill) as (Hinit & Hd & Hs & Hm).
  destruct (full_memories_count _ Hinit) as (Hn & _ & _).
  rewrite allExperiences_app, length_app, Hn in Htotal.
  cbn in Htotal. rewrite length_app in Htotal. cbn in Htotal.
  assert (Hall : Forall (λ x, inDiary x = false ∧ strikedOut x = false
                              ∧ length (experiences x) = 3%nat)
                        (init ++ [m])).
  { apply Forall_app. split; [done|]. apply Forall_singleton.
    split_and!; [done..|lia]. }
  destruct (full_memories_count _ Hall) as (_ & Ha & Ho).
  split; [done|]. rewrite Ha, length_app. cbn. lia.
Qed.

(** X19: after 15 responses the pool is full: every further response is
    answered with [CapacityExceeded] and the pool stays the pool of the
    first 15. *)
Theorem recordAll_beyond_capacity responses more :
  length responses = 15%nat →
  fst (recordAll (responses ++ more) []) = fst (recordAll responses [])
  ∧ snd (recordAll (responses ++ more) [])
    = snd (recordAll responses []) ++ replicate (length more) CapacityExceeded.
Proof.
  intros Hlen.
  destruct (recordAll_filledInOrder responses) as (Hfill & Htexts & _);
    [lia|].
  assert (Htotal : length (allExperiences (fst (recordAll responses [])))
                   = 15%nat).
  { by rewrite <- (length_fmap text), Htexts. }
  destruct (filledInOrder_full _ Hfill Htotal) as [Hnone Hfive].
  induction more as [|response more [IHpool IHouts]] using rev_ind.
  { rewrite app_nil_r. cbn. by rewrite app_nil_r. }
  rewrite (assoc (++)), recordAll_snoc. cbn [fst snd].
  rewrite IHpool, IHouts, recordResponse_exceeded; [|done|lia].
  cbn [fst snd]. split; [done|].
  rewrite length_app. cbn [length].
  rewrite Nat.add_1_r, replicate_S_end. by rewrite (assoc (++)).
Qed.

Lemma recordAll_beyond_capacity_witness :
  length (replicate 15 "r"%string) = 15%nat
  ∧ snd (recordAll (replicate 15 "r"%string ++ ["late"%string]) [])
    = snd (recordAll (replicate 15 "r"%string) []) ++ [CapacityExceeded].
Proof.
  split; [reflexivity|].
  exact (proj2 (recordAll_beyond_capacity (replicate 15 "r"%string)
                  ["late"%string] eq_refl)).
Defined.

(** ** The memory list of the client *)

Lemma list_find_split {A} (P : A → Prop) `{∀ x, Decision (P x)} l i x :
  list_find P l = Some (i, x) →
  ∃ pre post, l = pre ++ x :: post ∧ i = length pre ∧ P x
              ∧ ∀ y, y ∈ pre → ¬ P y.
Proof.
  intros (Hi & Hx & Hbefore)%list_find_Some.
  exists (take i l), (drop (S i) l). split_and!.
  - by rewrite take_drop_middle.
  - rewrite length_take. apply lookup_lt_Some in Hi. lia.
  - done.
  - intros y (j & Hj & Hlt)%elem_of_take. by apply (Hbefore j).
Qed.

Lemma list_find_middle {A} (P : A → Prop) `{∀ x, Decision (P x)} pre x post :
  P x → (∀ y, y ∈ pre → ¬ P y) →
  list_find P (pre ++ x :: post) = Some (length pre, x).
Proof.
  intros Hx Hpre. apply list_find_Some. split_and!.
  - by rewrite list_lookup_middle.
  - done.
  - intros j y Hj Hlt. rewrite lookup_app_l in Hj by done.
    by apply list_elem_of_lookup_2, Hpre in Hj.
Qed.

Lemma insert_middle {A} (pre : list A) x y post :
  <[length pre := y]> (pre ++ x :: post) = pre ++ y :: post.
Proof. induction pre as [|z pre IH]; [done|]. cbn. by f_equal. Qed.

Lemma recordResponse_exceeded_inv newExperience newId promptTitle memories :
  snd (recordResponse newExperience newId promptTitle memories)
    = CapacityExceeded →
  (∀ x, x ∈ memories → isOpen x = false)
  ∧ (5 ≤ activeMemoriesCount memories)%nat.
Proof.
  unfold recordResponse.
  destruct (list_find _ memories) as [[i m]|] eqn:Hfind; [done|].
  pose proof (proj1 (list_find_isOpen_None memories) Hfind) as Hnone.
  destruct (Nat.ltb_spec (activeMemoriesCount memories) 5); [done|].
  by intros _.
Qed.

(** X20: the "New Memory" button of the client keeps the bounds of the
    pool.  It saves nothing when 5 memories are not struck out, and nothing
    when the typed text is blank; otherwise it saves the pool with one more
    memory at the end, titled by its place in the pool and holding the one
    experience as typed.  What it saves is within the bounds when the pool
    was. *)
Theorem handleCreateMemory_poolInvariant
    trim newId now newExperience memories :
  ((5 ≤ activeMemoriesCount memories)%nat →
   handleCreateMemory trim newId now newExperience memories = None)
  ∧ (trim newExperience = EmptyString →
     handleCreateMemory trim newId now newExperience memories = None)
  ∧ ((activeMemoriesCount memories < 5)%nat →
     trim newExperience ≠ EmptyString →
     handleCreateMemory trim newId now newExperience memories
       = Some (memories
               ++ [ {| id := newId;
                       title := "Memory " +:+ pretty (length memories + 1)%nat;
                       experiences :=
                         [ {| text := newExperience; createdAt := now |} ];
                       inDiary := false;
                       strikedOut := false |} ]))
  ∧ ∀ memories',
      handleCreateMemory trim newId now newExperience memories
        = Some memories' →
      (∃ m, memories' = memories ++ [m]
            ∧ experiences m = [ {| text := newExperience; createdAt := now |} ]
            ∧ isOpen m = true)
      ∧ (poolInvariant memories → poolInvariant memories').
Proof.
  unfold handleCreateMemory. split_and!.
  - intros Hfull.
    by destruct (Nat.leb_spec 5 (activeMemoriesCount memories)); [|lia].
  - intros Hblank.
    destruct (Nat.leb_spec 5 (activeMemoriesCount memories)); [done|].
    by rewrite bool_decide_eq_true_2.
  - intros Hlt Htext.
    destruct (Nat.leb_spec 5 (activeMemoriesCount memories)); [lia|].
    by rewrite bool_decide_eq_false_2.
  - intros memories'.
    destruct (Nat.leb_spec 5 (activeMemoriesCount memories)) as [|Hlt];
      [done|].
    case_bool_decide; [done|]. intros [= <-]. split.
    + eexists. split; [done|]. done.
    + intros [Hexp Hcount]. split.
      * apply Forall_app. split; [done|]. apply Forall_singleton. cbn. lia.
      * rewrite activeMemoriesCount_app, activeMemoriesCount_cons. cbn. lia.
Qed.

Lemma handleCreateMemory_poolInvariant_witness :
  (activeMemoriesCount [fullMemory "m1"] < 5)%nat
  ∧ "I fed on a traveler"%string ≠ EmptyString
  ∧ handleCreateMemory (λ s, s) "m6" "now" "I fed on a traveler"
      [fullMemory "m1"]
    = Some [fullMemory "m1";
            mkMemory "m6" "Memory 2"
              [mkExperience "I fed on a traveler" "now"] false false]
  ∧ (5 ≤ activeMemoriesCount fullPool)%nat
  ∧ handleCreateMemory (λ s, s) "m6" "now" "I fed on a traveler" fullPool
    = None.
Proof.
  assert (Hlt : (activeMemoriesCount [fullMemory "m1"] < 5)%nat)
    by (vm_compute; lia).
  assert (Htext : "I fed on a traveler"%string ≠ EmptyString) by done.
  assert (Hfull : (5 ≤ activeMemoriesCount fullPool)%nat)
    by (vm_compute; lia).
  split_and!; [exact Hlt|exact Htext| |exact Hfull|].
  - destruct (handleCreateMemory_poolInvariant (λ s, s) "m6" "now"
                "I fed on a traveler" [fullMemory "m1"])
      as (_ & _ & Hsave & _).
    rewrite (Hsave Hlt Htext). reflexivity.
  - destruct (handleCreateMemory_poolInvariant (λ s, s) "m6" "now"
                "I fed on a traveler" fullPool) as (Hrefuse & _).
    exact (Hrefuse Hfull).
Defined.

Lemma handleStrikeOut_closed memoryId (memories : list Memory) :
  (∀ x, x ∈ memories → isOpen x = false) →
  ∀ x, x ∈ ((λ memory,
               if bool_decide (id memory = memoryId)
               then {| id := id memory; title := title memory;
                       experiences := experiences memory;
                       inDiary := inDiary memory; strikedOut := true |}
               else memory) <$> memories) →
       isOpen x = false.
Proof.
  intros Hnone x (y & -> & Hy)%list_elem_of_fmap.
  case_bool_decide; [|by apply Hnone].
  unfold isOpen. cbn. by rewrite andb_false_r.
Qed.

Lemma handleStrikeOut_count memoryId (memories : list Memory) :
  (activeMemoriesCount
     ((λ memory,
         if bool_decide (id memory = memoryId)
         then {| id := id memory; title := title memory;
                 experiences := experiences memory;
                 inDiary := inDiary memory; strikedOut := true |}
         else memory) <$> memories)
   ≤ activeMemoriesCount memories)%nat
  ∧ ∀ m, m ∈ memories → id m = memoryId → strikedOut m = false →
      (activeMemoriesCount
         ((λ memory,
             if bool_decide (id memory = memoryId)
             then {| id := id memory; title := title memory;
                     experiences := experiences memory;
                     inDiary := inDiary memory; strikedOut := true |}
             else memory) <$> memories)
       < activeMemoriesCount memories)%nat.
Proof.
  induction memories as [|x memories [IHle IHlt]].
  - split; [done|]. by intros m ?%elem_of_nil.
  - rewrite fmap_cons, !activeMemoriesCount_cons.
    case_bool_decide as Hid; cbn [strikedOut].
    + split; [destruct (strikedOut x); lia|].
      intros m [->|Hm]%elem_of_cons Hmid Hs.
      * rewrite Hs. lia.
      * specialize (IHlt m Hm Hmid Hs).
        destruct (strikedOut x); lia.
    + split; [lia|].
      intros m [->|Hm]%elem_of_cons Hmid Hs; [done|].
      specialize (IHlt m Hm Hmid Hs). lia.
Qed.

(** X21: striking out a memory makes room.  When a response finds the pool
    at capacity, the pool being within its cap, and the player strikes out
    a memory that was not struck out, the same response is then placed in a
    new memory at the end of the pool. *)
Theorem handleStrikeOut_frees_slot
    newExperience newId promptTitle memories memoryId m :
  (activeMemoriesCount memories ≤ 5)%nat →
  snd (recordResponse newExperience newId promptTitle memories)
    = CapacityExceeded →
  m ∈ memories → id m = memoryId → strikedOut m = false →
  ∃ memories',
    handleStrikeOut memoryId memories = Some memories'
    ∧ length memories' = length memories
    ∧ recordResponse newExperience newId promptTitle memories'
      = (memories'
           ++ [ {| id := newId; title := promptTitle;
                   experiences := [newExperience];
                   inDiary := false; strikedOut := false |} ],
         Created).
Proof.
  intros Hcap [Hnone Hfive]%recordResponse_exceeded_inv Hm Hid Hs.
  unfold handleStrikeOut.
  destruct (list_find_elem_of (λ x, id x = memoryId) memories m Hm Hid)
    as [[i x] ->].
  eexists. split; [done|]. split; [by rewrite length_fmap|].
  apply recordResponse_create.
  - by apply handleStrikeOut_closed.
  - pose proof (proj2 (handleStrikeOut_count memoryId memories) m Hm Hid Hs).
    lia.
Qed.

Lemma handleStrikeOut_frees_slot_witness :
  (activeMemoriesCount fullPool ≤ 5)%nat
  ∧ snd (recordResponse (mkExperience "four" "t4") "m6" "Memory" fullPool)
    = CapacityExceeded
  ∧ ∃ memories',
      handleStrikeOut "m2" fullPool = Some memories'
      ∧ snd (recordResponse (mkExperience "four" "t4") "m6" "Memory" memories')
        = Created.
Proof.
  assert (Hcap : (activeMemoriesCount fullPool ≤ 5)%nat) by (vm_compute; lia).
  split; [exact Hcap|]. split; [reflexivity|].
  destruct (handleStrikeOut_frees_slot (mkExperience "four" "t4") "m6"
              "Memory" fullPool "m2" (fullMemory "m2") Hcap eq_refl)
    as (memories' & Hstrike & _ & Hrecord); [|reflexivity..|].
  { unfold fullPool. cbn. rewrite !elem_of_cons. auto. }
  exists memories'. split; [exact Hstrike|]. by rewrite Hrecord.
Defined.

(** X22: moving a memory to a diary makes no room.  The memories saved
    have as many that are not struck out as before, and a response that
    found the pool at capacity still finds it so. *)
Theorem moveToDiary_keeps_capacity
    newExperience newId promptTitle memory memories :
  activeMemoriesCount (moveToDiaryMemories memory memories)
    = activeMemoriesCount memories
  ∧ (snd (recordResponse newExperience newId promptTitle memories)
       = CapacityExceeded →
     recordResponse newExperience newId promptTitle
       (moveToDiaryMemories memory memories)
     = (moveToDiaryMemories memory memories, CapacityExceeded)).
Proof.
  assert (Hcount : activeMemoriesCount (moveToDiaryMemories memory memories)
                   = activeMemoriesCount memories).
  { unfold moveToDiaryMemories. induction memories as [|x memories IH];
      [done|].
    rewrite fmap_cons, !activeMemoriesCount_cons, IH.
    by case_bool_decide. }
  split; [done|].
  intros [Hnone Hfive]%recordResponse_exceeded_inv.
  apply recordResponse_exceeded; [|lia].
  unfold moveToDiaryMemories.
  intros x (y & -> & Hy)%list_elem_of_fmap.
  case_bool_decide; [|by apply Hnone]. done.
Qed.

Lemma moveToDiary_keeps_capacity_witness :
  snd (recordResponse (mkExperience "four" "t4") "m6" "Memory" fullPool)
    = CapacityExceeded
  ∧ snd (recordResponse (mkExperience "four" "t4") "m6" "Memory"
           (moveToDiaryMemories (fullMemory "m2") fullPool))
    = CapacityExceeded.
Proof.
  split; [reflexivity|].
  rewrite (proj2 (moveToDiary_keeps_capacity (mkExperience "four" "t4") "m6"
                    "Memory" (fullMemory "m2") fullPool) eq_refl).
  reflexivity.
Defined.

Lemma withExperiences_same m : withExperiences m (experiences m) = m.
Proof. by destruct m. Qed.

Lemma activeMemoriesCount_withExperiences pre m es post :
  activeMemoriesCount (pre ++ withExperiences m es :: post)
    = activeMemoriesCount (pre ++ m :: post).
Proof.
  by rewrite !activeMemoriesCount_app, !activeMemoriesCount_cons.
Qed.

(** What "Save Experience" saves, when it saves: the first memory of the
    selected id, which holds fewer than three experiences, with the
    experience added at its end. *)
Lemma addExperienceToMemory_Some experience selectedMemoryId now memories
    memories' :
  addExperienceToMemory experience selectedMemoryId now memories
    = Some memories' →
  ∃ e memoryId pre m post,
    experience = Some e ∧ selectedMemoryId = Some memoryId
    ∧ memories = pre ++ m :: post
    ∧ id m = memoryId ∧ (∀ y, y ∈ pre → id y ≠ memoryId)
    ∧ (length (experiences m) < 3)%nat
    ∧ memories'
      = pre ++ withExperiences m
                 (experiences m ++ [ {| text := e; createdAt := now |} ])
            :: post.
Proof.
  unfold addExperienceToMemory.
  destruct experience as [[|c e]|]; [done| |done].
  destruct selectedMemoryId as [[|d i]|]; [done| |done].
  destruct (list_find _ memories) as [[j m]|] eqn:Hfind; [|done].
  apply list_find_split in Hfind as (pre & post & -> & -> & Hid & Hpre).
  destruct (Nat.leb_spec 3 (length (experiences m))); [done|].
  intros [= <-]. rewrite insert_middle.
  by eexists _, _, pre, m, post.
Qed.

(** X23: an experience saved into a memory and deleted again leaves the
    pool as it was: after "Save Experience" has added an experience to the
    first memory of the selected id, deleting the last experience of that
    memory gives back the memories it started from. *)
Theorem addExperience_then_delete experience selectedMemoryId now memories
    memories' :
  addExperienceToMemory experience selectedMemoryId now memories
    = Some memories' →
  ∃ memoryId i m,
    selectedMemoryId = Some memoryId
    ∧ list_find (λ x, id x = memoryId) memories = Some (i, m)
    ∧ handleDeleteExperience memoryId (length (experiences m)) memories'
      = Some memories.
Proof.
  intros (e & memoryId & pre & m & post & -> & -> & -> & Hid & Hpre & Hlen
          & ->)%addExperienceToMemory_Some.
  exists memoryId, (length pre), m. split; [done|].
  split; [by apply list_find_middle|].
  unfold handleDeleteExperience.
  rewrite (list_find_middle (λ x, id x = memoryId) pre
             (withExperiences m
                (experiences m ++ [ {| text := e; createdAt := now |} ]))
             post); [|done..].
  cbn [experiences withExperiences]. rewrite length_app. cbn [length].
  destruct (Nat.leb_spec (length (experiences m) + 1)
              (length (experiences m))); [lia|].
  rewrite insert_middle, delete_middle, app_nil_r.
  by destruct m.
Qed.

Lemma addExperience_then_delete_witness :
  let pool := [fullMemory "m1"; mkMemory "m2" "Open" [] false false] in
  ∃ memories',
    addExperienceToMemory (Some "I hid"%string) (Some "m2"%string) "now" pool
      = Some memories'
    ∧ handleDeleteExperience "m2" 0 memories' = Some pool.
Proof.
  cbn zeta. eexists. split; [reflexivity|].
  destruct (addExperience_then_delete (Some "I hid"%string)
              (Some "m2"%string) "now"
              [fullMemory "m1"; mkMemory "m2" "Open" [] false false] _ eq_refl)
    as (memoryId & i & m & [= <-] & Hfind & Hdelete).
  vm_compute in Hfind. injection Hfind as <- <-. exact Hdelete.
Defined.

(** X24: "Save Experience" keeps the bounds of the pool and adds exactly
    one experience.  A memory that already holds 3 experiences is refused:
    nothing is saved.  With a text and a selected id that are not empty,
    and fewer than 3 experiences in the first memory of that id, the pool
    is saved with the experience added at the end of that memory.  What is
    saved has the same memories at the same places, one experience more in
    all, and is within the bounds when the pool was. *)
Theorem addExperienceToMemory_poolInvariant experience selectedMemoryId now
    memories :
  (∀ memoryId i m,
     selectedMemoryId = Some memoryId →
     list_find (λ x, id x = memoryId) memories = Some (i, m) →
     (3 ≤ length (experiences m))%nat →
     addExperienceToMemory experience selectedMemoryId now memories = None)
  ∧ (∀ e memoryId i m,
       experience = Some e → e ≠ EmptyString →
       selectedMemoryId = Some memoryId → memoryId ≠ EmptyString →
       list_find (λ x, id x = memoryId) memories = Some (i, m) →
       (length (experiences m) < 3)%nat →
       addExperienceToMemory experience selectedMemoryId now memories
         = Some (<[i := {| id := id m; title := title m;
                           experiences :=
                             experiences m
                             ++ [ {| text := e; createdAt := now |} ];
                           inDiary := inDiary m;
                           strikedOut := strikedOut m |}]> memories))
  ∧ (∀ memories',
       addExperienceToMemory experience selectedMemoryId now memories
         = Some memories' →
       length memories' = length memories
       ∧ id <$> memories' = id <$> memories
       ∧ length (allExperiences memories')
         = S (length (allExperiences memories))
       ∧ (poolInvariant memories → poolInvariant memories')).
Proof.
  split_and!.
  - intros memoryId i m -> Hfind Hfull. unfold addExperienceToMemory.
    destruct experience as [[|c e]|]; [done| |done].
    destruct memoryId as [|d k]; [done|].
    rewrite Hfind.
    by destruct (Nat.leb_spec 3 (length (experiences m))); [|lia].
  - intros e memoryId i m -> He -> Hid Hfind Hlen.
    unfold addExperienceToMemory.
    destruct e as [|c e]; [done|]. destruct memoryId as [|d k]; [done|].
    rewrite Hfind.
    by destruct (Nat.leb_spec 3 (length (experiences m))); [lia|].
  - intros memories'
      (e & memoryId & pre & m & post & -> & -> & -> & Hid & Hpre & Hlen
       & ->)%addExperienceToMemory_Some.
    split_and!.
    + by rewrite !length_app.
    + by rewrite !fmap_app.
    + rewrite !allExperiences_app, !allExperiences_cons.
      cbn [experiences withExperiences].
      rewrite !length_app. cbn [length]. lia.
    + intros [Hexp Hcount]. split.
      * apply Forall_app in Hexp as [Hpre' Hpost%Forall_cons].
        destruct Hpost as [_ Hpost].
        apply Forall_app. split; [done|]. apply Forall_cons. split; [|done].
        cbn. rewrite length_app. cbn. lia.
      * by rewrite activeMemoriesCount_withExperiences.
Qed.

Lemma addExperienceToMemory_poolInvariant_witness :
  let pool := [fullMemory "m1"; mkMemory "m2" "Open" [] false false] in
  list_find (λ x, id x = "m1"%string) pool = Some (0%nat, fullMemory "m1")
  ∧ (3 ≤ length (experiences (fullMemory "m1")))%nat
  ∧ addExperienceToMemory (Some "I hid"%string) (Some "m1"%string) "now" pool
    = None
  ∧ list_find (λ x, id x = "m2"%string) pool
    = Some (1%nat, mkMemory "m2" "Open" [] false false)
  ∧ addExperienceToMemory (Some "I hid"%string) (Some "m2"%string) "now" pool
    = Some [fullMemory "m1";
            mkMemory "m2" "Open" [mkExperience "I hid" "now"] false false]
  ∧ length (allExperiences
              [fullMemory "m1";
               mkMemory "m2" "Open" [mkExperience "I hid" "now"] false false])
    = 4%nat.
Proof.
  cbn zeta.
  assert (Hfull : (3 ≤ length (experiences (fullMemory "m1")))%nat)
    by (cbn; lia).
  split_and!; [reflexivity|exact Hfull| |reflexivity| |].
  - destruct (addExperienceToMemory_poolInvariant (Some "I hid"%string)
                (Some "m1"%string) "now"
                [fullMemory "m1"; mkMemory "m2" "Open" [] false false])
      as (Hrefuse & _ & _).
    exact (Hrefuse "m1"%string 0%nat (fullMemory "m1") eq_refl eq_refl Hfull).
  - destruct (addExperienceToMemory_poolInvariant (Some "I hid"%string)
                (Some "m2"%string) "now"
                [fullMemory "m1"; mkMemory "m2" "Open" [] false false])
      as (_ & Hsave & _).
    rewrite (Hsave "I hid"%string "m2"%string 1%nat
               (mkMemory "m2" "Open" [] false false)
               eq_refl ltac:(done) eq_refl ltac:(done) eq_refl
               ltac:(cbn; lia)).
    reflexivity.
  - destruct (addExperienceToMemory_poolInvariant (Some "I hid"%string)
                (Some "m2"%string) "now"
                [fullMemory "m1"; mkMemory "m2" "Open" [] false false])
      as (_ & _ & Hkeep).
    destruct (Hkeep _ eq_refl) as (_ & _ & Hcount & _). exact Hcount.
Defined.

(** X25: deleting an experience removes exactly that one.  What is saved
    has the same memories at the same places and one experience less in
    all, the other experiences of the memory keep their order, and the
    bounds of the pool are kept; an index past the experiences of the
    memory, or an unknown id, saves nothing. *)
Theorem handleDeleteExperience_removes_one memoryId experienceIndex memories :
  (∀ memories',
     handleDeleteExperience memoryId experienceIndex memories
       = Some memories' →
     length memories' = length memories
     ∧ id <$> memories' = id <$> memories
     ∧ S (length (allExperiences memories'))
       = length (allExperiences memories)
     ∧ allExperiences memories' `sublist_of` allExperiences memories
     ∧ (poolInvariant memories → poolInvariant memories'))
  ∧ ((∀ m, m ∈ memories → id m ≠ memoryId) →
     handleDeleteExperience memoryId experienceIndex memories = None)
  ∧ (∀ i m, list_find (λ x, id x = memoryId) memories = Some (i, m) →
            (length (experiences m) ≤ experienceIndex)%nat →
            handleDeleteExperience memoryId experienceIndex memories = None).
Proof.
  unfold handleDeleteExperience. split_and!.
  - intros memories'.
    destruct (list_find _ memories) as [[j m]|] eqn:Hfind; [|done].
    apply list_find_split in Hfind as (pre & post & -> & -> & Hid & Hpre).
    destruct (Nat.leb_spec (length (experiences m)) experienceIndex)
      as [|Hlt]; [done|].
    intros [= <-]. rewrite insert_middle.
    assert (Hsub : delete experienceIndex (experiences m)
                   `sublist_of` experiences m).
    { rewrite delete_take_drop.
      rewrite <- (take_drop experienceIndex (experiences m)) at 3.
      apply sublist_app; [done|].
      replace (S experienceIndex) with (experienceIndex + 1)%nat by lia.
      rewrite <- drop_drop. apply sublist_drop. }
    split_and!.
    + by rewrite !length_app.
    + by rewrite !fmap_app.
    + rewrite !allExperiences_app, !allExperiences_cons.
      cbn [experiences withExperiences].
      rewrite !length_app, length_delete by (by apply lookup_lt_is_Some_2).
      lia.
    + rewrite !allExperiences_app, !allExperiences_cons.
      cbn [experiences withExperiences].
      apply sublist_app; [done|]. by apply sublist_app.
    + intros [Hexp Hcount]. split.
      * apply Forall_app in Hexp as [Hpre' Hpost%Forall_cons].
        destruct Hpost as [Hm Hpost].
        apply Forall_app. split; [done|]. apply Forall_cons. split; [|done].
        cbn. apply sublist_length in Hsub. lia.
      * by rewrite activeMemoriesCount_withExperiences.
  - intros Hnone.
    destruct (list_find _ memories) as [[j m]|] eqn:Hfind; [|done].
    apply list_find_Some in Hfind as (Hj & Hid & _).
    by apply list_elem_of_lookup_2, Hnone in Hj.
  - intros i m -> Hge.
    by destruct (Nat.leb_spec (length (experiences m)) experienceIndex);
      [|lia].
Qed.

Lemma handleDeleteExperience_removes_one_witness :
  ∃ memories',
    handleDeleteExperience "m2" 1 fullPool = Some memories'
    ∧ S (length (allExperiences memories')) = length (allExperiences fullPool).
Proof.
  eexists. split; [reflexivity|].
  exact (proj1 (proj2 (proj2 (proj1
    (handleDeleteExperience_removes_one "m2" 1 fullPool) _ eq_refl)))).
Defined.

(** ** A whole game *)

Lemma play_snoc availablePrompts rolls diceRoll :
  play availablePrompts (rolls ++ [diceRoll]) =
    advance (fst (fst (play availablePrompts rolls)))
      (snd (fst (play availablePrompts rolls))) diceRoll
      (snd (play availablePrompts rolls)) availablePrompts.
Proof. unfold play. by rewrite foldl_snoc. Qed.

(** X26: over a whole game, whatever the dice and the catalogue, the
    visit record never holds a prompt number or a letter twice and, once a
    roll was made, always holds the position the character stands on. *)
Theorem play_record_invariant availablePrompts rolls :
  noDuplicates (snd (play availablePrompts rolls))
  ∧ (rolls ≠ [] →
     isVisited (snd (play availablePrompts rolls))
       (fst (fst (play availablePrompts rolls)))
       (snd (fst (play availablePrompts rolls)))).
Proof.
  induction rolls as [|diceRoll rolls [IHnd _]] using rev_ind.
  - split; [|done]. split; [apply NoDup_nil_2|constructor].
  - rewrite play_snoc. unfold advance. cbn [fst snd]. split.
    + by apply trackVisited_noDuplicates.
    + intros _. apply isVisited_trackVisited. by right.
Qed.

Lemma play_record_invariant_witness :
  [mkDiceRoll 5 5; mkDiceRoll 1 6] ≠ []
  ∧ isVisited (snd (play catalogue [mkDiceRoll 5 5; mkDiceRoll 1 6]))
      (fst (fst (play catalogue [mkDiceRoll 5 5; mkDiceRoll 1 6])))
      (snd (fst (play catalogue [mkDiceRoll 5 5; mkDiceRoll 1 6]))).
Proof.
  assert (Hne : [mkDiceRoll 5 5; mkDiceRoll 1 6] ≠ []) by done.
  split; [exact Hne|].
  exact (proj2 (play_record_invariant catalogue
                  [mkDiceRoll 5 5; mkDiceRoll 1 6]) Hne).
Defined.

(** ** Traits *)

(** X27: updating traits never removes or renames one.  Checking and
    striking keep every name at its place and change nothing but the flag
    of the traits of the given name, so that doing either twice is doing it
    once; striking keeps a check and checking keeps a strike; adding puts
    one new trait, neither checked nor struck, at the end. *)
Theorem updateTrait_keeps_names traits name :
  trait_name <$> updateTrait traits name CheckTrait = trait_name <$> traits
  ∧ trait_name <$> updateTrait traits name StrikeTrait
    = trait_name <$> traits
  ∧ trait_checked <$> updateTrait traits name StrikeTrait
    = trait_checked <$> traits
  ∧ trait_strikedOut <$> updateTrait traits name CheckTrait
    = trait_strikedOut <$> traits
  ∧ updateTrait (updateTrait traits name CheckTrait) name CheckTrait
    = updateTrait traits name CheckTrait
  ∧ updateTrait (updateTrait traits name StrikeTrait) name StrikeTrait
    = updateTrait traits name StrikeTrait
  ∧ updateTrait traits name AddTrait = traits ++ [mkTrait name None None]
  ∧ (∀ other i t, other ≠ name → traits !! i = Some t →
       trait_name t = other →
       updateTrait traits name CheckTrait !! i = Some t
       ∧ updateTrait traits name StrikeTrait !! i = Some t).
Proof.
  unfold updateTrait. split_and!.
  - rewrite <- list_fmap_compose. apply list_fmap_ext.
    intros i t _. cbn. by case_bool_decide.
  - rewrite <- list_fmap_compose. apply list_fmap_ext.
    intros i t _. cbn. by case_bool_decide.
  - rewrite <- list_fmap_compose. apply list_fmap_ext.
    intros i t _. cbn. by case_bool_decide.
  - rewrite <- list_fmap_compose. apply list_fmap_ext.
    intros i t _. cbn. by case_bool_decide.
  - rewrite <- list_fmap_compose. apply list_fmap_ext.
    intros i t _. cbn. case_bool_decide as Hn; cbn; [|by case_bool_decide].
    by case_bool_decide.
  - rewrite <- list_fmap_compose. apply list_fmap_ext.
    intros i t _. cbn. case_bool_decide as Hn; cbn; [|by case_bool_decide].
    by case_bool_decide.
  - done.
  - intros other i t Hne Hi Hname.
    rewrite !list_lookup_fmap, Hi. cbn.
    rewrite bool_decide_eq_false_2 by congruence. done.
Qed.

Lemma updateTrait_keeps_names_witness :
  let traits := [mkTrait "Swordplay" None None; mkTrait "Latin" (Some true) None] in
  "Latin"%string ≠ "Swordplay"%string
  ∧ updateTrait traits "Swordplay" StrikeTrait !! 1%nat
    = Some (mkTrait "Latin" (Some true) None).
Proof.
  cbn zeta.
  assert (Hne : "Latin"%string ≠ "Swordplay"%string) by done.
  split; [exact Hne|].
  destruct (updateTrait_keeps_names
              [mkTrait "Swordplay" None None; mkTrait "Latin" (Some true) None]
              "Swordplay") as (_ & _ & _ & _ & _ & _ & _ & Hother).
  exact (proj2 (Hother "Latin"%string 1%nat
                  (mkTrait "Latin" (Some true) None) Hne eq_refl eq_refl)).
Defined.
